(** * rcu-linked-list: an RCU protected list of dogs behind a sysfs attribute

    Shallow embedding of [src/sync/rcu/rcu-linked-list.c].

    The module keeps a global list of [struct dog], appended to by the sysfs
    store callback, dumped by the sysfs show callback and shortened from its
    head by a timer callback that hands the unlinked entry to [kfree_rcu].

    The file has three layers:
    - [Klib]: the kernel library routines the module calls ([kstrndup],
      [strsep], [kstrtoint], [snprintf]).  They are not part of the module's
      source; they are written after the kernel's own implementation.
    - the sequential model of the module: its global variables as a record
      and each callback as a function on that record;
    - [Rcu]: an interleaving model at the level of list pointers, with
      readers in the middle of a traversal, used for the grace period
      property.

    The [PR_DEBUG] calls (from utils.h) only print and are left out, and so
    is the spinlock itself: what it gives, that the two updaters never
    overlap, is that each of their critical sections is one step. *)

From Stdlib Require Import ZArith String Ascii List DecimalString Lia.
From Stdlib Require DecimalPos.
From stdpp Require Import gmap list.

Local Open Scope Z_scope.

(* ===================================================================== *)
(** * Constants                                                           *)
(* ===================================================================== *)

(** [#define DOG_ENTRY_NBYTES 64] *)
Definition DOG_ENTRY_NBYTES : nat := 64.

(** errno values of the kernel (include/uapi/asm-generic/errno-base.h). *)
Definition ENOMEM : Z := 12.
Definition EINVAL : Z := 22.
Definition ERANGE : Z := 34.

(** Integer widths of a 64-bit kernel: [int] has 32 bits, [long long],
    [size_t], [ssize_t] and [unsigned long] have 64. *)
Definition INT_MIN : Z := - 2 ^ 31.
Definition INT_MAX : Z := 2 ^ 31 - 1.
Definition LLONG_MAX : Z := 2 ^ 63 - 1.
Definition ULLONG_MAX : Z := 2 ^ 64 - 1.
Definition SIZE_MODULUS : Z := 2 ^ 64.

(** Wrap-around of [size_t] and [unsigned long] arithmetic. *)
Definition wrap_size (z : Z) : Z := z mod SIZE_MODULUS.

(** Conversion of a [size_t] to the [ssize_t] a callback returns. *)
Definition to_ssize (z : Z) : Z :=
  let u := wrap_size z in
  if u <? 2 ^ 63 then u else u - SIZE_MODULUS.

Definition NUL : ascii := "000"%char.
Definition NEWLINE : ascii := "010"%char.
Definition COMMA : ascii := ","%char.

(* ===================================================================== *)
(** * Kernel library routines                                             *)
(* ===================================================================== *)

Module Klib.

(** Result of the [kstrto*] family: the parsed value or a negative errno. *)
Inductive kres : Type :=
| KOk (v : Z)
| KErr (e : Z).

(** [kstrndup(s, max, gfp)]: a fresh copy of the C string [s], cut after
    [max] bytes.  A C string ends at its first NUL byte.  The allocation
    itself may fail; that is decided by the caller's allocator oracle. *)
Fixpoint kstrndup (s : string) (max : nat) : string :=
  match max, s with
  | S m, String c s' =>
      if Ascii.eqb c NUL then EmptyString else String c (kstrndup s' m)
  | _, _ => EmptyString
  end.

(** One call of [strsep(&s, ",")] on a non-NULL [s]: the token up to the
    first comma, and the new value of [s]: the text after that comma, or
    NULL ([None]) when there was no comma. *)
Fixpoint strsep (s : string) : string * option string :=
  match s with
  | EmptyString => (EmptyString, None)
  | String c s' =>
      if Ascii.eqb c COMMA then (EmptyString, Some s')
      else let (tok, rest) := strsep s' in (String c tok, rest)
  end.

(** The tokens returned by the successive calls of [strsep(&s, ",")] until
    it returns NULL: the loop condition of
    [while ((str_token = strsep(&ibuf, ",")) != NULL)]. *)
Fixpoint strsep_tokens (s : string) : list string :=
  match s with
  | EmptyString => [EmptyString]
  | String c s' =>
      if Ascii.eqb c COMMA then EmptyString :: strsep_tokens s'
      else match strsep_tokens s' with
           | tok :: toks => String c tok :: toks
           | [] => [String c EmptyString]
           end
  end.

(** Value of a digit as [_parse_integer] reads it: '0'..'9', and 'a'..'f'
    in either case (the character or-ed with 0x20). *)
Definition digit_val (c : ascii) : option Z :=
  let n := Z.of_N (N_of_ascii c) in
  let lc := Z.lor n 32 in
  if (48 <=? n) && (n <=? 57) then Some (n - 48)
  else if (97 <=? lc) && (lc <=? 102) then Some (lc - 97 + 10)
  else None.

(** [_parse_integer(s, base, &res)]: consumes the longest prefix of digits
    below [base].  Returns the accumulated value, the number of characters
    consumed and the rest of the string.  The value is kept unbounded here;
    the kernel accumulates in an [unsigned long long] and raises its
    overflow flag exactly when the value leaves that type, which
    [_kstrtoull] below tests as [ULLONG_MAX < res]. *)
Fixpoint _parse_integer (s : string) (base : Z) (res : Z) (rv : nat)
  : Z * nat * string :=
  match s with
  | EmptyString => (res, rv, s)
  | String c s' =>
      match digit_val c with
      | Some val =>
          if val <? base then _parse_integer s' base (res * base + val) (S rv)
          else (res, rv, s)
      | None => (res, rv, s)
      end
  end.

(** [_parse_integer_fixup_radix] for a non-zero base: only base 16 skips a
    leading "0x". *)
Definition _parse_integer_fixup_radix (s : string) (base : Z) : string :=
  match s with
  | String c0 (String c1 s') =>
      if (base =? 16) && Ascii.eqb c0 "0"
         && (Z.lor (Z.of_N (N_of_ascii c1)) 32 =? 120)
      then s' else s
  | _ => s
  end.

(** [_kstrtoull]: digits, then at most one newline, then the end of the
    string. *)
Definition _kstrtoull (s : string) (base : Z) : kres :=
  let s := _parse_integer_fixup_radix s base in
  let '(res, rv, rest) := _parse_integer s base 0 0 in
  if ULLONG_MAX <? res then KErr (- ERANGE)
  else if Nat.eqb rv 0 then KErr (- EINVAL)
  else
    let rest := match rest with
                | String c r => if Ascii.eqb c NEWLINE then r else rest
                | EmptyString => rest
                end in
    match rest with
    | EmptyString => KOk res
    | String _ _ => KErr (- EINVAL)
    end.

(** [kstrtoull]: one optional leading '+'. *)
Definition kstrtoull (s : string) (base : Z) : kres :=
  match s with
  | String c s' => if Ascii.eqb c "+" then _kstrtoull s' base
                   else _kstrtoull s base
  | EmptyString => _kstrtoull s base
  end.

(** [kstrtoll]: a leading '-' negates; the value has to fit [long long]. *)
Definition kstrtoll (s : string) (base : Z) : kres :=
  let minus :=
    match s with
    | String c s' => if Ascii.eqb c "-" then Some s' else None
    | EmptyString => None
    end in
  match minus with
  | Some s' =>
      match _kstrtoull s' base with
      | KErr e => KErr e
      | KOk tmp => if LLONG_MAX + 1 <? tmp then KErr (- ERANGE) else KOk (- tmp)
      end
  | None =>
      match kstrtoull s base with
      | KErr e => KErr e
      | KOk tmp => if LLONG_MAX <? tmp then KErr (- ERANGE) else KOk tmp
      end
  end.

(** [kstrtoint]: the value has to fit [int]. *)
Definition kstrtoint (s : string) (base : Z) : kres :=
  match kstrtoll s base with
  | KErr e => KErr e
  | KOk tmp =>
      if (INT_MIN <=? tmp) && (tmp <=? INT_MAX) then KOk tmp
      else KErr (- ERANGE)
  end.

(** ["%d"] of an [int]. *)
Definition fmt_d (z : Z) : string := NilZero.string_of_int (Z.to_int z).

(** Bytes [out] stored at [buf + off].  [None] when they do not fit the
    memory [buf] stands for: a store outside the caller's buffer. *)
Definition write_at (buf : list ascii) (off : nat) (out : list ascii)
  : option (list ascii) :=
  if (off + length out <=? length buf)%nat
  then Some (take off buf ++ out ++ drop (off + length out) buf)
  else None.

(** [snprintf(buf + off, size, ...)] where the format expands to [s]: at
    most [size - 1] characters of [s] are stored, followed by a NUL; the
    value returned is the length of [s] itself, also when [s] was cut. *)
Definition snprintf (buf : list ascii) (off size : nat) (s : string)
  : option (list ascii * Z) :=
  match size with
  | O => Some (buf, Z.of_nat (String.length s))
  | S n =>
      match write_at buf off (take n (list_ascii_of_string s) ++ [NUL]) with
      | Some buf' => Some (buf', Z.of_nat (String.length s))
      | None => None
      end
  end.

End Klib.

(* ===================================================================== *)
(** * The module's data                                                   *)
(* ===================================================================== *)

(** [struct dog] without its two link fields [list] and [rh]: in the
    sequential model the position in [dog_list] stands for the links. *)
Record dog : Type := {
  breed : string;
  age : Z;               (* int, in months *)
  training_easy : bool
}.

(** The global variables of the module.  [rcu_callbacks] lists the
    entries handed to [kfree_rcu] and not yet freed, in the order of the
    calls of [kfree_rcu]; the order in which they are freed is not fixed;
    [removal_timer] is the expiry (in jiffies) of the timer when it is
    pending; [dog_kobj] tells whether the module holds its kobject. *)
Record state : Type := {
  dog_list : list dog;
  dog_list_size : Z;                (* size_t *)
  rcu_callbacks : list dog;
  removal_timer : option Z;
  dog_kobj : bool
}.

(** The state of a freshly loaded image: [LIST_HEAD(dog_list)], zeroed
    statics. *)
Definition init_state : state :=
  {| dog_list := []; dog_list_size := 0; rcu_callbacks := [];
     removal_timer := None; dog_kobj := false |}.

(** What a callback does: it returns a value in a new state, or it stores
    outside [dog_attr] or outside the output buffer, after which C defines
    nothing. *)
Inductive outcome (A : Type) : Type :=
| Ret (v : A) (st : state)
| OutOfBounds.
Arguments Ret {A} v st.
Arguments OutOfBounds {A}.

(** The two [GFP_KERNEL] allocations of [dog_attr_store] may fail; the
    allocator's answers are an input of the model. *)
Record alloc : Type := {
  kstrndup_ok : bool;
  kmalloc_ok : bool
}.

Definition alloc_ok : alloc := {| kstrndup_ok := true; kmalloc_ok := true |}.

(* ===================================================================== *)
(** * [dog_attr_show]                                                     *)
(* ===================================================================== *)

(** The text ["%s %d %s\n"] expands to for one entry. *)
Definition dog_line (entry : dog) : string :=
  (breed entry ++ " " ++ Klib.fmt_d (age entry) ++ " "
   ++ (if training_easy entry then "true" else "false")
   ++ String NEWLINE EmptyString)%string.

(** The body of [list_for_each_entry_rcu]: one [snprintf] per entry at
    [&buf[nbytes]], and [nbytes += ] its return value. *)
Fixpoint show_loop (l : list dog) (buf : list ascii) (nbytes : Z)
  : option (list ascii * Z) :=
  match l with
  | [] => Some (buf, nbytes)
  | entry :: l' =>
      match Klib.snprintf buf (Z.to_nat nbytes) DOG_ENTRY_NBYTES
                          (dog_line entry) with
      | Some (buf', n) => show_loop l' buf' (wrap_size (nbytes + n))
      | None => None
      end
  end.

(** [dog_attr_show(kobj, attr, buf)]: [buf] is the memory the caller
    provides; the result is that memory afterwards and the return value. *)
Definition dog_attr_show (buf : list ascii) (st : state)
  : outcome (list ascii * Z) :=
  match show_loop (dog_list st) buf 0 with
  | Some (buf', nbytes) => Ret (buf', to_ssize nbytes) st
  | None => OutOfBounds
  end.

(* ===================================================================== *)
(** * [dog_attr_store]                                                    *)
(* ===================================================================== *)

(** [dog_attr[idx++] = str_token] for every token; the array has three
    slots and the loop does not look at [idx]. *)
Fixpoint fill_dog_attr (toks : list string) (dog_attr : list string)
         (idx : nat) : option (list string * nat) :=
  match toks with
  | [] => Some (dog_attr, idx)
  | tok :: toks' =>
      if (idx <? 3)%nat
      then fill_dog_attr toks' (<[idx := tok]> dog_attr) (S idx)
      else None
  end.

(** [spin_lock_irqsave; list_add_tail_rcu; dog_list_size++;
    spin_unlock_irqrestore]. *)
Definition list_add_tail (entry : dog) (st : state) : state :=
  {| dog_list := dog_list st ++ [entry];
     dog_list_size := wrap_size (dog_list_size st + 1);
     rcu_callbacks := rcu_callbacks st;
     removal_timer := removal_timer st;
     dog_kobj := dog_kobj st |}.

(** The first half of [dog_attr_store], up to the initialisation of the new
    entry: the entry, or the value of an early [return], or a store past
    the end of [dog_attr]. *)
Inductive parsed : Type :=
| Parsed (entry : dog)
| Early (ret : Z)
| Overrun.

Definition parse_dog (mem : alloc) (buf : string) : parsed :=
  if negb (kstrndup_ok mem) then Early (- ENOMEM) else
  let ibuf := Klib.kstrndup buf DOG_ENTRY_NBYTES in
  match fill_dog_attr (Klib.strsep_tokens ibuf) (replicate 3 EmptyString) 0 with
  | None => Overrun
  | Some (dog_attr, idx) =>
      if (idx <? 3)%nat then Early (- EINVAL) else
      match Klib.kstrtoint (nth 1 dog_attr EmptyString) 10 with
      | Klib.KErr err => Early err
      | Klib.KOk dog_age =>
          match Klib.kstrtoint (nth 2 dog_attr EmptyString) 2 with
          | Klib.KErr err => Early err
          | Klib.KOk dog_training =>
              if negb (kmalloc_ok mem) then Early (- ENOMEM) else
              Parsed {| breed := nth 0 dog_attr EmptyString;
                        age := dog_age;
                        training_easy := negb (dog_training =? 0) |}
          end
      end
  end.

(** [dog_attr_store(kobj, attr, buf, count)]: the parsed entry is appended
    under the spinlock and [count] is returned. *)
Definition dog_attr_store (mem : alloc) (buf : string) (count : Z)
           (st : state) : outcome Z :=
  match parse_dog mem buf with
  | Parsed entry => Ret (to_ssize count) (list_add_tail entry st)
  | Early ret => Ret ret st
  | Overrun => OutOfBounds
  end.

(* ===================================================================== *)
(** * The removal timer, module init and exit                             *)
(* ===================================================================== *)

Section Timer.

(** [msecs_to_jiffies] depends on the kernel's HZ. *)
Variable msecs_to_jiffies : Z -> Z.

(** [mod_timer(&removal_timer, expires)]. *)
Definition mod_timer (expires : Z) (st : state) : state :=
  {| dog_list := dog_list st;
     dog_list_size := dog_list_size st;
     rcu_callbacks := rcu_callbacks st;
     removal_timer := Some expires;
     dog_kobj := dog_kobj st |}.

(** [del_timer_sync(&removal_timer)]. *)
Definition del_timer_sync (st : state) : state :=
  {| dog_list := dog_list st;
     dog_list_size := dog_list_size st;
     rcu_callbacks := rcu_callbacks st;
     removal_timer := None;
     dog_kobj := dog_kobj st |}.

(** The guarded block of [timer_remove_dog]: [list_first_entry],
    [list_del_rcu] and [kfree_rcu] under the spinlock. *)
Definition remove_first (st : state) : state :=
  match dog_list st with
  | [] => st
  | entry :: rest =>
      {| dog_list := rest;
         dog_list_size := dog_list_size st;
         rcu_callbacks := rcu_callbacks st ++ [entry];
         removal_timer := removal_timer st;
         dog_kobj := dog_kobj st |}
  end.

(** [timer_remove_dog(data)], run when the timer fires at time [jiffies]. *)
Definition timer_remove_dog (jiffies : Z) (st : state) : state :=
  mod_timer (wrap_size (jiffies + msecs_to_jiffies 5000)) (remove_first st).

(** [kobject_put(dog_kobj)]. *)
Definition kobject_put (st : state) : state :=
  {| dog_list := dog_list st;
     dog_list_size := dog_list_size st;
     rcu_callbacks := rcu_callbacks st;
     removal_timer := removal_timer st;
     dog_kobj := false |}.

(** [dog_kobj = kobject_create_and_add("rcu-linked-list", NULL)]: an
    object when [ok], NULL otherwise. *)
Definition kobject_create_and_add (ok : bool) (st : state) : state :=
  {| dog_list := dog_list st;
     dog_list_size := dog_list_size st;
     rcu_callbacks := rcu_callbacks st;
     removal_timer := removal_timer st;
     dog_kobj := ok |}.

(** [rcu_linked_list_init]: [kobj_ok] tells whether
    [kobject_create_and_add] returned an object, [group_err] is the value
    of [sysfs_create_group]. *)
Definition rcu_linked_list_init (kobj_ok : bool) (group_err : Z)
           (jiffies : Z) (st : state) : Z * state :=
  let st1 := kobject_create_and_add kobj_ok st in
  if negb kobj_ok then (- ENOMEM, del_timer_sync st1)
  else if negb (group_err =? 0)
       then (group_err, del_timer_sync (kobject_put st1))
       else (0, mod_timer (wrap_size (jiffies + msecs_to_jiffies 5000)) st1).


(** The RCU core, once the grace period of a queued entry has elapsed,
    frees that entry: the one at position [i] of the queue, if there is
    one.  This step belongs to the kernel, not to the module; which entry
    it frees, and when, is the kernel's choice. *)
Definition rcu_reclaim (i : nat) (st : state) : state :=
  {| dog_list := dog_list st;
     dog_list_size := dog_list_size st;
     rcu_callbacks := delete i (rcu_callbacks st);
     removal_timer := removal_timer st;
     dog_kobj := dog_kobj st |}.

(** ** Runs of the module

    A run is a sequence of calls, each complete before the next starts:
    this is what the spinlock gives the two updaters. *)
Inductive op : Type :=
| Write (mem : alloc) (buf : string) (count : Z)   (* dog_attr_store *)
| Tick (jiffies : Z)                               (* timer_remove_dog *)
| Reclaim (i : nat).                               (* end of a grace period *)

(** What a call did to the list. *)
Inductive event : Type :=
| Appended (entry : dog)
| Removed (entry : dog).

Definition step (o : op) (st : state) : option (state * list event) :=
  match o with
  | Write mem buf count =>
      match dog_attr_store mem buf count st with
      | Ret _ st' =>
          Some (st', match parse_dog mem buf with
                     | Parsed entry => [Appended entry]
                     | _ => []
                     end)
      | OutOfBounds => None
      end
  | Tick jiffies =>
      Some (timer_remove_dog jiffies st,
            match dog_list st with
            | entry :: _ => [Removed entry]
            | [] => []
            end)
  | Reclaim i => Some (rcu_reclaim i st, [])
  end.

Fixpoint run (ops : list op) (st : state) : option (state * list event) :=
  match ops with
  | [] => Some (st, [])
  | o :: ops' =>
      match step o st with
      | Some (st', evs) =>
          match run ops' st' with
          | Some (st'', evs') => Some (st'', evs ++ evs')
          | None => None
          end
      | None => None
      end
  end.

Definition appended (evs : list event) : list dog :=
  omap (fun ev => match ev with Appended e => Some e | Removed _ => None end)
       evs.

Definition removed (evs : list event) : list dog :=
  omap (fun ev => match ev with Removed e => Some e | Appended _ => None end)
       evs.

End Timer.

(* ===================================================================== *)
(** * Vocabulary of the statements                                        *)
(* ===================================================================== *)

(** The text of a dump: the lines of the entries one after the other. *)
Definition dump (l : list dog) : list ascii :=
  flat_map (fun entry => list_ascii_of_string (dog_line entry)) l.

(** A line that [snprintf] stores whole within [DOG_ENTRY_NBYTES]. *)
Definition line_fits (entry : dog) : Prop :=
  (String.length (dog_line entry) < DOG_ENTRY_NBYTES)%nat.

(** A string followed by a newline. *)
Definition with_newline (s : string) : list ascii :=
  list_ascii_of_string s ++ [NEWLINE].

(** A field of the written text: no comma and no NUL inside. *)
Definition plain_field (s : string) : bool :=
  forallb (fun c => negb (Ascii.eqb c COMMA) && negb (Ascii.eqb c NUL))
          (list_ascii_of_string s).

(** A string of the digits 0 and 1. *)
Definition binary_digits (s : string) : bool :=
  forallb (fun c => Ascii.eqb c "0" || Ascii.eqb c "1")
          (list_ascii_of_string s).

(** The number a string of binary digits denotes, most significant digit
    first. *)
Definition bin_value (s : string) : Z :=
  fold_left (fun acc c => 2 * acc + (if Ascii.eqb c "1" then 1 else 0))
            (list_ascii_of_string s) 0.

(** [n] times the character [c]. *)
Definition repeat_char (n : nat) (c : ascii) : string :=
  string_of_list_ascii (replicate n c).

(** A written text of 62 bytes whose line needs 67. *)
Definition long_line_input : string :=
  (repeat_char 58 "B" ++ ",1,0")%string.

(** A written text of 74 bytes: three good fields in the first 64 bytes,
    then ten more. *)
Definition over_long_input : string :=
  (repeat_char 60 "B" ++ ",3,1" ++ "0 and more")%string.

(** The number of commas in a text. *)
Definition commas (s : string) : nat :=
  length (filter (fun c => c = COMMA) (list_ascii_of_string s)).

(** The text that writes the entry back: its breed, its age in decimal
    and 1 or 0 for its flag, with commas between them. *)
Definition dog_text (entry : dog) : string :=
  (breed entry ++ String COMMA
     (Klib.fmt_d (age entry) ++ String COMMA
        (if training_easy entry then "1" else "0")))%string.

(** The number a string of decimal digits denotes, read from the left
    with [acc] as the value of the digits read so far. *)
Fixpoint uint_value (d : Decimal.uint) (acc : Z) : Z :=
  match d with
  | Decimal.Nil => acc
  | Decimal.D0 d => uint_value d (acc * 10 + 0)
  | Decimal.D1 d => uint_value d (acc * 10 + 1)
  | Decimal.D2 d => uint_value d (acc * 10 + 2)
  | Decimal.D3 d => uint_value d (acc * 10 + 3)
  | Decimal.D4 d => uint_value d (acc * 10 + 4)
  | Decimal.D5 d => uint_value d (acc * 10 + 5)
  | Decimal.D6 d => uint_value d (acc * 10 + 6)
  | Decimal.D7 d => uint_value d (acc * 10 + 7)
  | Decimal.D8 d => uint_value d (acc * 10 + 8)
  | Decimal.D9 d => uint_value d (acc * 10 + 9)
  end.

(** The number of reclamations in a run. *)
Definition reclaims (ops : list op) : nat :=
  length (omap (fun o => match o with Reclaim _ => Some tt | _ => None end)
               ops).

(** A text without a NUL byte. *)
Definition nul_free (s : string) : bool :=
  forallb (fun c => negb (Ascii.eqb c NUL)) (list_ascii_of_string s).

(* ===================================================================== *)
(** * Readers in the middle of a traversal: the pointer level model       *)
(* ===================================================================== *)

(** The list as the kernel keeps it: a circular doubly linked list through
    the [list] field of each [struct dog], with [dog_list] as its head.
    An address stands for one object: [kmalloc] does not return it a second
    time, so that an access after [kfree] is not mistaken for an access to
    a later object at the same place.
    Updaters hold [list_update_lock], so the body of each of their critical
    sections is one step here; each of them makes exactly one store a
    reader can see, the one to [prev->next].  A reader advances one entry
    per step, so updates and reclamation happen between any two of its
    loads.

    [kfree_rcu] and the grace period are the kernel's: an entry given to
    [kfree_rcu] waits for the read-side critical sections in progress at
    that moment, and is freed when all of them have ended. *)
Module Rcu.

Abbreviation addr := nat (only parsing).   (* address of a struct dog *)
Abbreviation tid := nat (only parsing).    (* one execution of dog_attr_show *)

(** A [struct list_head *]: [&dog_list], [&entry->list] or LIST_POISON2. *)
Inductive ptr : Type :=
| Head
| Node (a : addr)
| Poison.

#[global] Instance ptr_eq_dec : EqDecision ptr.
Proof. solve_decision. Defined.

(** [struct dog] with its links. *)
Record node : Type := {
  payload : dog;
  next : ptr;
  prev : ptr
}.

(** Where a reader is: it has taken [rcu_read_lock] and not yet loaded
    [dog_list.next], or its loop variable [entry] is at [p]. *)
Inductive position : Type :=
| Entered
| At (p : ptr).

(** A reader between [rcu_read_lock] and [rcu_read_unlock]: its position,
    and (for the statement of the grace period property only, no step
    looks at it) the entries unlinked since it entered. *)
Record reader : Type := {
  cursor : position;
  unlinked_since : gset addr
}.

Record cstate : Type := {
  heap : gmap addr node;             (* every struct dog ever allocated *)
  freed : gset addr;                 (* those given back by kfree *)
  head_next : ptr;                   (* dog_list.next *)
  head_prev : ptr;                   (* dog_list.prev *)
  list_size : Z;                     (* dog_list_size *)
  readers : gmap tid reader;         (* read-side critical sections *)
  callbacks : gmap addr (gset tid)   (* kfree_rcu: entry, sections awaited *)
}.

Definition init : cstate :=
  {| heap := ∅; freed := ∅; head_next := Head; head_prev := Head;
     list_size := 0; readers := ∅; callbacks := ∅ |}.

Definition with_heap (h : gmap addr node) (st : cstate) : cstate :=
  {| heap := h; freed := freed st; head_next := head_next st;
     head_prev := head_prev st; list_size := list_size st;
     readers := readers st; callbacks := callbacks st |}.

Definition with_head_next (p : ptr) (st : cstate) : cstate :=
  {| heap := heap st; freed := freed st; head_next := p;
     head_prev := head_prev st; list_size := list_size st;
     readers := readers st; callbacks := callbacks st |}.

Definition with_head_prev (p : ptr) (st : cstate) : cstate :=
  {| heap := heap st; freed := freed st; head_next := head_next st;
     head_prev := p; list_size := list_size st;
     readers := readers st; callbacks := callbacks st |}.

Definition with_readers (r : gmap tid reader) (st : cstate) : cstate :=
  {| heap := heap st; freed := freed st; head_next := head_next st;
     head_prev := head_prev st; list_size := list_size st;
     readers := r; callbacks := callbacks st |}.

Definition with_callbacks (c : gmap addr (gset tid)) (st : cstate) : cstate :=
  {| heap := heap st; freed := freed st; head_next := head_next st;
     head_prev := head_prev st; list_size := list_size st;
     readers := readers st; callbacks := c |}.

Definition set_next_field (p : ptr) (n : node) : node :=
  {| payload := payload n; next := p; prev := prev n |}.

Definition set_prev_field (p : ptr) (n : node) : node :=
  {| payload := payload n; next := next n; prev := p |}.

(** [at->next = v].  A store through LIST_POISON2 or through a pointer to
    no object faults. *)
Definition store_next (at_ : ptr) (v : ptr) (st : cstate) : option cstate :=
  match at_ with
  | Head => Some (with_head_next v st)
  | Node a =>
      match heap st !! a with
      | Some n => Some (with_heap (<[a := set_next_field v n]> (heap st)) st)
      | None => None
      end
  | Poison => None
  end.

(** [at->prev = v]. *)
Definition store_prev (at_ : ptr) (v : ptr) (st : cstate) : option cstate :=
  match at_ with
  | Head => Some (with_head_prev v st)
  | Node a =>
      match heap st !! a with
      | Some n => Some (with_heap (<[a := set_prev_field v n]> (heap st)) st)
      | None => None
      end
  | Poison => None
  end.

(** [list_add_tail_rcu(&entry->list, &dog_list)] for the fresh object at
    [a], then [dog_list_size++]:
    [new->next = head; new->prev = head->prev;
     rcu_assign_pointer(prev->next, new); head->prev = new]. *)
Definition list_add_tail_rcu (a : addr) (d : dog) (st : cstate)
  : option cstate :=
  let prev_ := head_prev st in
  let st1 := with_heap (<[a := {| payload := d; next := Head;
                                  prev := prev_ |}]> (heap st)) st in
  st2 ← store_next prev_ (Node a) st1;
  Some (with_head_prev (Node a) st2).

(** [list_del_rcu(&entry->list)]:
    [next->prev = prev; prev->next = next; entry->prev = LIST_POISON2].
    The forward pointer of the entry stays as it is. *)
Definition list_del_rcu (a : addr) (st : cstate) : option cstate :=
  n ← heap st !! a;
  st1 ← store_prev (next n) (prev n) st;
  st2 ← store_next (prev n) (next n) st1;
  store_prev (Node a) Poison st2.

(** [kfree_rcu(entry, rh)]: the entry is queued; it waits for every
    read-side critical section in progress now. *)
Definition kfree_rcu (a : addr) (st : cstate) : cstate :=
  with_callbacks (<[a := dom (readers st)]> (callbacks st)) st.

Definition note_unlinked (a : addr) (r : reader) : reader :=
  {| cursor := cursor r; unlinked_since := {[a]} ∪ unlinked_since r |}.

(** What can happen next. *)
Inductive action : Type :=
| RdLock (t : tid)        (* rcu_read_lock *)
| RdFirst (t : tid)       (* the load of dog_list.next *)
| RdVisit (t : tid)       (* the loop body on one entry, and entry->next *)
| RdUnlock (t : tid)      (* the loop is over: rcu_read_unlock *)
| Store (a : addr) (d : dog) (* the locked section of dog_attr_store *)
| Timer                   (* timer_remove_dog *)
| Free (a : addr).        (* kfree by the RCU core *)

(** One step; [None] when the action cannot happen in this state or a
    pointer store faults. *)
Definition do_action (act : action) (st : cstate) : option cstate :=
  match act with
  | RdLock t =>
      match readers st !! t with
      | Some _ => None
      | None =>
          Some (with_readers
                  (<[t := {| cursor := Entered;
                             unlinked_since := ∅ |}]> (readers st)) st)
      end
  | RdFirst t =>
      r ← readers st !! t;
      match cursor r with
      | Entered =>
          Some (with_readers
                  (<[t := {| cursor := At (head_next st);
                             unlinked_since := unlinked_since r |}]>
                     (readers st)) st)
      | _ => None
      end
  | RdVisit t =>
      r ← readers st !! t;
      match cursor r with
      | At (Node a) =>
          n ← heap st !! a;
          Some (with_readers
                  (<[t := {| cursor := At (next n);
                             unlinked_since := unlinked_since r |}]>
                     (readers st)) st)
      | _ => None
      end
  | RdUnlock t =>
      r ← readers st !! t;
      match cursor r with
      | At Head =>
          Some (with_callbacks ((fun w : gset tid => w ∖ {[t]}) <$> callbacks st)
                  (with_readers (delete t (readers st)) st))
      | _ => None
      end
  | Store a d =>
      match heap st !! a with
      | Some _ => None            (* kmalloc returns an unused address *)
      | None =>
          st1 ← list_add_tail_rcu a d st;
          Some {| heap := heap st1; freed := freed st1;
                  head_next := head_next st1; head_prev := head_prev st1;
                  list_size := wrap_size (list_size st1 + 1);
                  readers := readers st1; callbacks := callbacks st1 |}
      end
  | Timer =>
      match head_next st with
      | Head => Some st                     (* list_empty *)
      | Node a =>
          st1 ← list_del_rcu a st;
          Some (with_readers (note_unlinked a <$> readers st1)
                  (kfree_rcu a st1))
      | Poison => None
      end
  | Free a =>
      w ← (callbacks st !! a : option (gset tid));
      if decide (w = ∅)
      then Some {| heap := heap st; freed := {[a]} ∪ freed st;
                   head_next := head_next st; head_prev := head_prev st;
                   list_size := list_size st; readers := readers st;
                   callbacks := delete a (callbacks st) |}
      else None
  end.

Fixpoint run (acts : list action) (st : cstate) : option cstate :=
  match acts with
  | [] => Some st
  | act :: acts' => st' ← do_action act st; run acts' st'
  end.

(** The entries a traversal from [p] meets, when they are [l]. *)
Fixpoint chain (h : gmap addr node) (p : ptr) (l : list addr) : Prop :=
  match l with
  | [] => p = Head
  | a :: l' => p = Node a ∧ ∃ n, h !! a = Some n ∧ chain h (next n) l'
  end.

(** The dogs at the addresses [l]: what the sequential model calls
    [dog_list] when [l] are the linked entries. *)
Definition dogs_of (h : gmap addr node) (l : list addr) : list dog :=
  omap (fun a => payload <$> h !! a) l.

(** A reader never holds a pointer to freed memory, and no entry unlinked
    during its critical section has been freed. *)
Definition reader_safe (st : cstate) (r : reader) : Prop :=
  (∀ a, cursor r = At (Node a) → is_Some (heap st !! a) ∧ a ∉ freed st)
  ∧ (∀ a, a ∈ unlinked_since r → is_Some (heap st !! a) ∧ a ∉ freed st).

(** What holds of every state the module can reach, for [l] the entries
    linked at the moment, first to last. *)
Record inv (st : cstate) (l : list addr) : Prop := {
  (* the forward pointers spell [l] *)
  inv_chain : chain (heap st) (head_next st) l;
  inv_nodup : NoDup l;
  (* dog_list.prev is the last entry; the first entry points back at the head *)
  inv_tail : head_prev st = (match last l with
                             | Some a => Node a
                             | None => Head
                             end);
  inv_first_prev : ∀ a n,
    head l = Some a → heap st !! a = Some n → prev n = Head;
  (* linked entries are neither freed nor queued *)
  inv_linked : ∀ a, a ∈ l → (a ∉ freed st) ∧ callbacks st !! a = None;
  (* queued entries are still allocated *)
  inv_queued : ∀ a w,
    callbacks st !! a = Some w → is_Some (heap st !! a) ∧ a ∉ freed st;
  inv_freed : ∀ a, a ∈ freed st → is_Some (heap st !! a);
  (* a grace period only waits for sections in progress *)
  inv_awaited : ∀ a w t,
    callbacks st !! a = Some w → t ∈ w → is_Some (readers st !! t);
  (* the entry a reader is at is linked, or queued and waiting for it *)
  inv_cursor : ∀ t r a,
    readers st !! t = Some r → cursor r = At (Node a) →
    a ∈ l ∨ ∃ w, callbacks st !! a = Some w ∧ t ∈ w;
  (* so is the entry after a queued entry, for the readers it waits for *)
  inv_queued_next : ∀ a w t n b,
    callbacks st !! a = Some w → t ∈ w →
    heap st !! a = Some n → next n = Node b →
    b ∈ l ∨ ∃ w', callbacks st !! b = Some w' ∧ t ∈ w';
  (* an entry unlinked during a section waits for that section *)
  inv_unlinked : ∀ t r a,
    readers st !! t = Some r → a ∈ unlinked_since r →
    ∃ w, callbacks st !! a = Some w ∧ t ∈ w
}.

(** The traversal [list_for_each_entry_rcu] makes when nothing else
    runs: the entries met from [p] on, at most [fuel] of them. *)
Fixpoint walk (fuel : nat) (h : gmap addr node) (p : ptr) : list addr :=
  match fuel with
  | O => []
  | S fuel' =>
      match p with
      | Node a =>
          match h !! a with
          | Some n => a :: walk fuel' h (next n)
          | None => []
          end
      | _ => []
      end
  end.

(** The linked entries, first to last, and their dogs. *)
Definition linked (st : cstate) : list addr :=
  walk (size (heap st)) (heap st) (head_next st).

Definition linked_dogs (st : cstate) : list dog :=
  dogs_of (heap st) (linked st).

(** LIST_POISON2 is never where a reader loads from: not in
    [dog_list.next], not in the forward pointer of an object, not in the
    position of a reader. *)
Definition no_poison (st : cstate) : Prop :=
  head_next st ≠ Poison
  ∧ (∀ a n, heap st !! a = Some n → next n ≠ Poison)
  ∧ (∀ t r, readers st !! t = Some r → cursor r ≠ At Poison).

(** The position of a reader that has met the first [k] of the entries
    [l]. *)
Definition position_after (l : list addr) (k : nat) : position :=
  At (match l !! k with Some a => Node a | None => Head end).

(** The steps of one reader that meets [k] entries. *)
Definition traversal (t : tid) (k : nat) : list action :=
  [RdLock t; RdFirst t] ++ replicate k (RdVisit t).

End Rcu.

(* ===================================================================== *)
(** * Properties of the sequential model                                  *)
(* ===================================================================== *)

(** ** The tokens of [strsep] *)

Lemma strsep_tokens_step (s : string) :
  Klib.strsep_tokens s =
  let (tok, rest) := Klib.strsep s in
  tok :: match rest with
         | Some s' => Klib.strsep_tokens s'
         | None => []
         end.
Proof.
  induction s as [|c s IH]; simpl; [reflexivity|].
  destruct (Ascii.eqb c COMMA); [reflexivity|].
  rewrite IH. destruct (Klib.strsep s) as [tok rest]. reflexivity.
Qed.

Lemma strsep_tokens_nonempty (s : string) : Klib.strsep_tokens s ≠ [].
Proof.
  rewrite strsep_tokens_step. destruct (Klib.strsep s). discriminate.
Qed.

(** ** The loop that fills [dog_attr] *)

Lemma fill_dog_attr_idx toks : ∀ dog_attr idx dog_attr' idx',
  fill_dog_attr toks dog_attr idx = Some (dog_attr', idx') →
  idx' = (idx + length toks)%nat ∧ (toks ≠ [] → (idx' ≤ 3)%nat).
Proof.
  induction toks as [|tok toks IH]; intros dog_attr idx dog_attr' idx' H;
    simpl in H.
  - inversion H; subst. split; [simpl; lia | congruence].
  - destruct (idx <? 3)%nat eqn:Hlt; [|discriminate].
    apply Nat.ltb_lt in Hlt.
    apply IH in H as [-> Hle]. split; [simpl; lia|].
    intros _. destruct toks; [simpl; lia | apply Hle; discriminate].
Qed.

Lemma fill_dog_attr_overrun toks : ∀ dog_attr idx,
  (3 < idx + length toks)%nat → toks ≠ [] →
  fill_dog_attr toks dog_attr idx = None.
Proof.
  intros dog_attr idx Hlen Hne.
  destruct (fill_dog_attr toks dog_attr idx) as [[d i]|] eqn:E; [|reflexivity].
  apply fill_dog_attr_idx in E as [-> Hle]. specialize (Hle Hne). lia.
Qed.

Lemma fill_dog_attr_three (t0 t1 t2 : string) dog_attr :
  length dog_attr = 3%nat →
  fill_dog_attr [t0; t1; t2] dog_attr 0 = Some ([t0; t1; t2], 3%nat).
Proof.
  intros Hlen. destruct dog_attr as [|a [|b [|c [|]]]]; try discriminate.
  reflexivity.
Qed.

(** ** Early returns leave the state alone *)

Lemma dog_attr_store_cases mem buf count st :
  match parse_dog mem buf with
  | Parsed entry =>
      dog_attr_store mem buf count st
      = Ret (to_ssize count) (list_add_tail entry st)
  | Early ret => dog_attr_store mem buf count st = Ret ret st
  | Overrun => dog_attr_store mem buf count st = OutOfBounds
  end.
Proof. unfold dog_attr_store. destruct (parse_dog mem buf); reflexivity. Qed.

(** Every value [parse_dog] returns early is a negative errno. *)
Lemma kstrtoint_error s base e :
  Klib.kstrtoint s base = Klib.KErr e → e = - EINVAL ∨ e = - ERANGE.
Proof.
  assert (H0 : ∀ s e, Klib._kstrtoull s base = Klib.KErr e →
                      e = - EINVAL ∨ e = - ERANGE).
  { clear. intros s e. unfold Klib._kstrtoull.
    destruct (Klib._parse_integer _ _ _ _) as [[res rv] rest]. intros H.
    repeat case_match; simplify_eq; auto. }
  assert (H1 : ∀ s e, Klib.kstrtoull s base = Klib.KErr e →
                      e = - EINVAL ∨ e = - ERANGE).
  { intros s' e'. unfold Klib.kstrtoull. repeat case_match; apply H0. }
  unfold Klib.kstrtoint, Klib.kstrtoll. intros H.
  repeat case_match; simplify_eq; eauto.
Qed.

Lemma parse_dog_early mem buf ret :
  parse_dog mem buf = Early ret →
  ret = - ENOMEM ∨ ret = - EINVAL ∨ ret = - ERANGE.
Proof.
  unfold parse_dog. intros H. repeat case_match; simplify_eq; auto;
    match goal with
    | H : Klib.kstrtoint _ _ = Klib.KErr _ |- _ =>
        apply kstrtoint_error in H; tauto
    end.
Qed.

(** A store that returns a negative value has changed nothing. *)
Lemma dog_attr_store_error_unchanged mem buf count st ret st' :
  0 ≤ count < 2 ^ 63 →
  dog_attr_store mem buf count st = Ret ret st' → ret < 0 → st' = st.
Proof.
  intros Hc H Hneg. pose proof (dog_attr_store_cases mem buf count st) as Hcase.
  destruct (parse_dog mem buf); rewrite Hcase in H; inversion H; subst; auto.
  exfalso. unfold to_ssize, wrap_size, SIZE_MODULUS in Hneg.
  rewrite Z.mod_small in Hneg by lia.
  destruct (count <? 2 ^ 63) eqn:E; [lia|]. apply Z.ltb_ge in E. lia.
Qed.

(** Fewer than three fields: [-EINVAL], nothing changed. *)
Lemma dog_attr_store_too_few_fields mem buf count st :
  kstrndup_ok mem = true →
  (length (Klib.strsep_tokens (Klib.kstrndup buf DOG_ENTRY_NBYTES)) < 3)%nat →
  dog_attr_store mem buf count st = Ret (- EINVAL) st.
Proof.
  intros Hok Hlen. unfold dog_attr_store, parse_dog. rewrite Hok. simpl negb.
  cbv iota.
  destruct (Klib.strsep_tokens _) as [|t0 [|t1 [|t2 ?]]]; simpl in *;
    try reflexivity; lia.
Qed.

(** More than three fields: the fourth token is stored past the array. *)
Lemma dog_attr_store_too_many_fields mem buf count st :
  kstrndup_ok mem = true →
  (3 < length (Klib.strsep_tokens (Klib.kstrndup buf DOG_ENTRY_NBYTES)))%nat →
  dog_attr_store mem buf count st = OutOfBounds.
Proof.
  intros Hok Hlen. unfold dog_attr_store, parse_dog. rewrite Hok. simpl negb.
  cbv iota. rewrite fill_dog_attr_overrun; [reflexivity | simpl; lia |].
  apply strsep_tokens_nonempty.
Qed.

(** Three fields of which the age or the flag is refused by [kstrtoint]:
    the error of [kstrtoint], nothing changed. *)
Lemma dog_attr_store_bad_number mem buf count st t0 t1 t2 :
  kstrndup_ok mem = true →
  Klib.strsep_tokens (Klib.kstrndup buf DOG_ENTRY_NBYTES) = [t0; t1; t2] →
  (∃ e, Klib.kstrtoint t1 10 = Klib.KErr e) ∨
  (∃ e, Klib.kstrtoint t2 2 = Klib.KErr e) →
  ∃ e, dog_attr_store mem buf count st = Ret e st
       ∧ (e = - EINVAL ∨ e = - ERANGE).
Proof.
  intros Hok Htok Hbad. unfold dog_attr_store, parse_dog.
  rewrite Hok, Htok. simpl.
  destruct (Klib.kstrtoint t1 10) as [v1|e1] eqn:E1.
  - destruct Hbad as [[e He]|[e He]]; [discriminate|]. rewrite He.
    exists e. split; [reflexivity|]. eapply kstrtoint_error; eauto.
  - exists e1. split; [reflexivity|]. eapply kstrtoint_error; eauto.
Qed.

Example store_OnlyBreed st count :
  dog_attr_store alloc_ok "OnlyBreed" count st = Ret (- EINVAL) st.
Proof. reflexivity. Qed.

Example store_Pug_x_1 st count :
  dog_attr_store alloc_ok "Pug,x,1" count st = Ret (- EINVAL) st.
Proof. reflexivity. Qed.

(** C2 (the code misses a case).  A write with four fields, "Pug,4,1,1",
    has a wrong field count, yet it is not answered with a validation
    error: the loop over the tokens stores the fourth one in
    [dog_attr[3]], past the end of the three element array, before the
    test [idx < 3] is reached. *)
Theorem store_four_fields_out_of_bounds (st : state) (count : Z) :
  dog_attr_store alloc_ok "Pug,4,1,1" count st = OutOfBounds.
Proof. reflexivity. Qed.

(** ** Runs: appends at the tail, removals at the head *)

Section Runs.

Variable msecs_to_jiffies : Z -> Z.

Local Abbreviation tick := (timer_remove_dog msecs_to_jiffies).
Local Abbreviation step1 := (step msecs_to_jiffies).
Local Abbreviation runs := (run msecs_to_jiffies).

Lemma appended_app evs evs' :
  appended (evs ++ evs') = appended evs ++ appended evs'.
Proof. unfold appended. apply omap_app. Qed.

Lemma removed_app evs evs' :
  removed (evs ++ evs') = removed evs ++ removed evs'.
Proof. unfold removed. apply omap_app. Qed.

(** A successful store links the new entry behind all the others. *)
Lemma store_appends_at_tail mem buf count st entry :
  parse_dog mem buf = Parsed entry →
  ∃ st', dog_attr_store mem buf count st = Ret (to_ssize count) st'
         ∧ dog_list st' = dog_list st ++ [entry]
         ∧ rcu_callbacks st' = rcu_callbacks st.
Proof.
  intros Hp. unfold dog_attr_store. rewrite Hp. eexists. split; [reflexivity|].
  split; reflexivity.
Qed.

(** A tick on a list that is not empty unlinks its first entry and gives
    that entry to [kfree_rcu]. *)
Lemma timer_removes_head jiffies st entry rest :
  dog_list st = entry :: rest →
  dog_list (tick jiffies st) = rest
  ∧ rcu_callbacks (tick jiffies st) = rcu_callbacks st ++ [entry].
Proof.
  intros Hl. unfold timer_remove_dog, remove_first. rewrite Hl.
  split; reflexivity.
Qed.

Lemma step_fifo o st st' evs :
  step1 o st = Some (st', evs) →
  dog_list st ++ appended evs = removed evs ++ dog_list st'.
Proof.
  destruct o as [mem buf count|jiffies|]; simpl.
  - unfold dog_attr_store. destruct (parse_dog mem buf); intros [= <- <-];
      simpl; auto using app_nil_r.
  - intros [= <- <-]. unfold timer_remove_dog, remove_first.
    destruct (dog_list st) eqn:E; simpl; rewrite ?E, ?app_nil_r; reflexivity.
  - intros [= <- <-]. simpl. apply app_nil_r.
Qed.

Lemma step_size o st st' evs :
  step1 o st = Some (st', evs) →
  wrap_size (dog_list_size st')
  = wrap_size (dog_list_size st + Z.of_nat (length (appended evs))).
Proof.
  destruct o as [mem buf count|jiffies|]; simpl.
  - unfold dog_attr_store. destruct (parse_dog mem buf); intros [= <- <-];
      simpl; rewrite ?Z.add_0_r; auto.
    unfold wrap_size. apply Z.mod_mod. discriminate.
  - intros [= <- <-]. unfold timer_remove_dog, remove_first.
    destruct (dog_list st) eqn:E; simpl; rewrite ?Z.add_0_r; auto.
  - intros [= <- <-]. simpl. rewrite Z.add_0_r. reflexivity.
Qed.

(** The counter follows the appends and nothing else: after any run it is
    its first value plus the number of appends (as a [size_t]). *)
Lemma run_size_counts_appends ops : ∀ st st' evs,
  runs ops st = Some (st', evs) →
  wrap_size (dog_list_size st')
  = wrap_size (dog_list_size st + Z.of_nat (length (appended evs))).
Proof.
  induction ops as [|o ops IH]; intros st st' evs; simpl.
  - intros [= <- <-]. simpl. rewrite Z.add_0_r. reflexivity.
  - destruct (step1 o st) as [[st1 evs1]|] eqn:E1; [|discriminate].
    destruct (runs ops st1) as [[st2 evs2]|] eqn:E2; [|discriminate].
    intros [= <- <-]. apply IH in E2. apply step_size in E1.
    rewrite E2, appended_app, length_app, Nat2Z.inj_add.
    unfold wrap_size in *.
    rewrite <- Z.add_mod_idemp_l, E1, Z.add_mod_idemp_l by discriminate.
    f_equal. lia.
Qed.

(** The list itself has as many entries as were appended and not removed. *)
Lemma run_length ops st st' evs :
  runs ops st = Some (st', evs) →
  (length (dog_list st') + length (removed evs)
   = length (dog_list st) + length (appended evs))%nat.
Proof.
  revert st st' evs.
  induction ops as [|o ops IH]; intros st st' evs; simpl.
  - intros [= <- <-]. simpl. lia.
  - destruct (step1 o st) as [[st1 evs1]|] eqn:E1; [|discriminate].
    destruct (runs ops st1) as [[st2 evs2]|] eqn:E2; [|discriminate].
    intros [= <- <-]. apply IH in E2. apply step_fifo in E1.
    apply (f_equal length) in E1. rewrite !length_app in E1.
    rewrite appended_app, removed_app, !length_app. lia.
Qed.

(** C1 (the code does not do what its own comment asks for).  After one
    append and one removal the list is empty, so appends minus removals
    is 0, but [dog_list_size] is 1: [timer_remove_dog] unlinks the entry
    and never decrements the counter, which "must be manually updated in
    every insertion/removal". *)
Theorem size_counter_not_decremented_by_removal (jiffies : Z) :
  match runs [Write alloc_ok "Golden,3,1" 10; Tick jiffies] init_state with
  | Some (st, evs) =>
      length (appended evs) = 1%nat ∧ length (removed evs) = 1%nat
      ∧ dog_list st = [] ∧ dog_list_size st = 1
  | None => False
  end.
Proof. vm_compute. auto. Qed.

(** C5.  In every run of stores, ticks and reclamations, the entries that
    were linked at the start followed by the entries appended since, in
    the order of the appends, are the entries removed since, in the order
    of the removals, followed by the entries linked now.  So appends go to
    the tail and each removal takes the entry that has been linked for the
    longest time. *)
Theorem removal_takes_oldest (ops : list op) (st st' : state)
        (evs : list event) :
  runs ops st = Some (st', evs) →
  dog_list st ++ appended evs = removed evs ++ dog_list st'.
Proof.
  revert st st' evs.
  induction ops as [|o ops IH]; intros st st' evs; simpl.
  - intros [= <- <-]. simpl. apply app_nil_r.
  - destruct (step1 o st) as [[st1 evs1]|] eqn:E1; [|discriminate].
    destruct (runs ops st1) as [[st2 evs2]|] eqn:E2; [|discriminate].
    intros [= <- <-]. apply IH in E2. apply step_fifo in E1.
    rewrite appended_app, removed_app, app_assoc, E1, <- !app_assoc, E2.
    reflexivity.
Qed.

(** C6.  A tick always leaves the timer pending at 5000 ms from the
    time it ran, touches neither the counter nor the kobject, and on an
    empty list leaves the list and the queue of retired entries as they
    were. *)
Theorem timer_tick_reschedules (jiffies : Z) (st : state) :
  let st' := tick jiffies st in
  removal_timer st' = Some (wrap_size (jiffies + msecs_to_jiffies 5000))
  ∧ dog_list_size st' = dog_list_size st
  ∧ dog_kobj st' = dog_kobj st
  ∧ (dog_list st = [] →
     dog_list st' = [] ∧ rcu_callbacks st' = rcu_callbacks st).
Proof.
  unfold timer_remove_dog, remove_first.
  destruct (dog_list st) eqn:E; simpl; rewrite ?E; repeat split; auto;
    discriminate.
Qed.


End Runs.

(** The two halves of C6 at concrete states, with HZ = 250. *)
Lemma timer_tick_reschedules_witness :
  let st := timer_remove_dog (fun ms => ms / 4) 1000 init_state in
  removal_timer st = Some 2250 ∧ dog_list st = [] ∧ rcu_callbacks st = [].
Proof.
  pose proof (timer_tick_reschedules (fun ms => ms / 4) 1000 init_state)
    as (Ht & _ & _ & Hl).
  destruct (Hl eq_refl) as [Hl1 Hl2].
  split; [exact Ht | split; [exact Hl1 | exact Hl2]].
Defined.

Lemma removal_takes_oldest_witness :
  ∃ st evs,
    run (fun ms => ms / 4)
        [Write alloc_ok "Golden,3,1" 10; Write alloc_ok "Pug,4,10" 8;
         Tick 1000] init_state = Some (st, evs)
    ∧ dog_list init_state ++ appended evs = removed evs ++ dog_list st.
Proof.
  eexists _, _. split; [reflexivity|].
  apply (removal_takes_oldest (fun ms => ms / 4)
           [Write alloc_ok "Golden,3,1" 10; Write alloc_ok "Pug,4,10" 8;
            Tick 1000]).
  reflexivity.
Defined.


(** ** The dump *)

Lemma length_chars (s : string) :
  length (list_ascii_of_string s) = String.length s.
Proof. induction s; simpl; congruence. Qed.

Lemma write_at_fits buf off out :
  (off + length out ≤ length buf)%nat →
  ∃ buf', Klib.write_at buf off out = Some buf'
          ∧ length buf' = length buf
          ∧ take off buf' = take off buf
          ∧ take (length out) (drop off buf') = out.
Proof.
  intros Hfit. unfold Klib.write_at.
  destruct (off + length out <=? length buf)%nat eqn:E;
    [|apply Nat.leb_gt in E; lia].
  eexists. split; [reflexivity|].
  assert (Hoff : length (take off buf) = off) by (rewrite length_take; lia).
  repeat split.
  - rewrite !length_app, Hoff, length_drop. lia.
  - rewrite take_app_length' by (symmetry; exact Hoff). reflexivity.
  - rewrite drop_app_length' by (symmetry; exact Hoff).
    apply take_app_length.
Qed.

(** When every line fits its 64 bytes and the buffer holds the whole dump
    and the closing NUL, the loop stores the lines back to back and counts
    their bytes. *)
Lemma show_loop_lines_fit l : ∀ (buf : list ascii) (n : nat),
  Forall line_fits l →
  (n + length (dump l) + 1 ≤ length buf)%nat →
  Z.of_nat (length buf) < SIZE_MODULUS →
  ∃ buf', show_loop l buf (Z.of_nat n)
          = Some (buf', Z.of_nat (n + length (dump l)))
          ∧ length buf' = length buf
          ∧ take (n + length (dump l)) buf' = take n buf ++ dump l.
Proof.
  induction l as [|entry l IH]; intros buf n Hfit Hlen Hmod.
  - exists buf. simpl. rewrite Nat.add_0_r, app_nil_r. auto.
  - inversion Hfit as [|? ? Hline Hfit']; subst. unfold line_fits in Hline.
    simpl dump in *. rewrite length_app, length_chars in *.
    set (chars := list_ascii_of_string (dog_line entry)) in *.
    assert (Hchars : length chars = String.length (dog_line entry))
      by apply length_chars.
    destruct (write_at_fits buf n (chars ++ [NUL])) as (buf1 & Hw & Hl1 & Ht1 & Hd1).
    { rewrite length_app. simpl. lia. }
    destruct (IH buf1 (n + String.length (dog_line entry))%nat Hfit')
      as (buf' & Hloop & Hl' & Ht'); [lia | lia |].
    exists buf'. split; [|split].
    + simpl show_loop. unfold Klib.snprintf, DOG_ENTRY_NBYTES in *.
      rewrite Nat2Z.id. fold chars.
      rewrite (take_ge chars) by lia. rewrite Hw.
      replace (wrap_size (Z.of_nat n + Z.of_nat (String.length (dog_line entry))))
        with (Z.of_nat (n + String.length (dog_line entry))).
      * rewrite Hloop. do 2 f_equal. lia.
      * unfold wrap_size. rewrite Z.mod_small; lia.
    + lia.
    + rewrite Nat.add_assoc, Ht'. rewrite app_assoc. f_equal.
      rewrite <- take_take_drop, Ht1. f_equal.
      rewrite <- Hchars.
      rewrite length_app in Hd1. simpl in Hd1.
      apply (f_equal (take (length chars))) in Hd1.
      rewrite take_take, take_app_length in Hd1.
      rewrite Nat.min_l in Hd1 by lia. exact Hd1.
Qed.

(** The read operation on a list whose lines all fit. *)
Lemma dog_attr_show_lines_fit (buf : list ascii) (st : state) :
  Forall line_fits (dog_list st) →
  (length (dump (dog_list st)) + 1 ≤ length buf)%nat →
  Z.of_nat (length buf) < 2 ^ 63 →
  ∃ buf', dog_attr_show buf st
          = Ret (buf', Z.of_nat (length (dump (dog_list st)))) st
          ∧ length buf' = length buf
          ∧ take (length (dump (dog_list st))) buf' = dump (dog_list st).
Proof.
  intros Hfit Hlen Hmod.
  destruct (show_loop_lines_fit (dog_list st) buf 0 Hfit) as (buf' & Hl & Hlb & Ht).
  - lia.
  - unfold SIZE_MODULUS. lia.
  - exists buf'. unfold dog_attr_show. change (Z.of_nat 0) with 0 in Hl.
    rewrite Hl. simpl in *. split; [|split; auto].
    do 2 f_equal. unfold to_ssize, wrap_size, SIZE_MODULUS.
    rewrite Z.mod_small by lia.
    destruct (_ <? _) eqn:E; [reflexivity|]. apply Z.ltb_ge in E. lia.
Qed.

Lemma dump_app l1 l2 : dump (l1 ++ l2) = dump l1 ++ dump l2.
Proof. unfold dump. apply flat_map_app. Qed.

(** C4.  Let the list be one whose lines all fit, and the buffer be large
    enough for its dump and 19 more bytes.  The write of "Golden,3,1"
    followed by a read returns the length of the old dump plus 14, and the
    buffer holds the old dump followed by the line "Golden 3 true" and a
    newline; the write of "Labrador,12,0" gives 18 more bytes and the line
    "Labrador 12 false" in the same way.  On the empty list the read
    returns exactly that line. *)
Theorem write_then_read_round_trip (st : state) (buf : list ascii)
        (count : Z) :
  Forall line_fits (dog_list st) →
  (length (dump (dog_list st)) + 19 ≤ length buf)%nat →
  Z.of_nat (length buf) < 2 ^ 63 →
  (∃ st1 buf1,
      dog_attr_store alloc_ok "Golden,3,1" count st = Ret (to_ssize count) st1
      ∧ dog_attr_show buf st1
        = Ret (buf1, Z.of_nat (length (dump (dog_list st))) + 14) st1
      ∧ take (length (dump (dog_list st)) + 14) buf1
        = dump (dog_list st) ++ with_newline "Golden 3 true")
  ∧ (∃ st1 buf1,
      dog_attr_store alloc_ok "Labrador,12,0" count st
      = Ret (to_ssize count) st1
      ∧ dog_attr_show buf st1
        = Ret (buf1, Z.of_nat (length (dump (dog_list st))) + 18) st1
      ∧ take (length (dump (dog_list st)) + 18) buf1
        = dump (dog_list st) ++ with_newline "Labrador 12 false").
Proof.
  intros Hfit Hlen Hmod.
  assert (Hshow : ∀ entry (k : nat),
             (k < 19)%nat → length (dump [entry]) = k →
             ∃ buf1, dog_attr_show buf (list_add_tail entry st)
                     = Ret (buf1, Z.of_nat (length (dump (dog_list st)))
                                  + Z.of_nat k)
                           (list_add_tail entry st)
                     ∧ take (length (dump (dog_list st)) + k) buf1
                       = dump (dog_list st) ++ dump [entry]).
  { intros entry k Hk Hdump.
    destruct (dog_attr_show_lines_fit buf (list_add_tail entry st))
      as (buf1 & Hs & _ & Ht); simpl dog_list.
    - apply Forall_app. split; [assumption|].
      constructor; [|constructor]. unfold line_fits, DOG_ENTRY_NBYTES.
      simpl in Hdump. rewrite app_nil_r, length_chars in Hdump. lia.
    - rewrite dump_app, length_app, Hdump. lia.
    - exact Hmod.
    - simpl dog_list in Hs, Ht.
      rewrite dump_app, length_app, Hdump in Hs, Ht.
      rewrite Nat2Z.inj_add in Hs. eauto. }
  split.
  - destruct (Hshow {| breed := "Golden"; age := 3; training_easy := true |}
                    14%nat) as (buf1 & Hs & Ht); [lia | reflexivity |].
    eexists _, buf1. split; [reflexivity|]. split; [exact Hs | exact Ht].
  - destruct (Hshow {| breed := "Labrador"; age := 12; training_easy := false |}
                    18%nat) as (buf1 & Hs & Ht); [lia | reflexivity |].
    eexists _, buf1. split; [reflexivity|]. split; [exact Hs | exact Ht].
Qed.

Lemma write_then_read_round_trip_witness :
  ∃ st1 buf1,
    dog_attr_store alloc_ok "Golden,3,1" 10 init_state = Ret 10 st1
    ∧ dog_attr_show (replicate 32 NUL) st1 = Ret (buf1, 14) st1
    ∧ take 14 buf1 = with_newline "Golden 3 true".
Proof.
  destruct (write_then_read_round_trip init_state (replicate 32 NUL) 10)
    as [(st1 & buf1 & H1 & H2 & H3) _].
  - constructor.
  - vm_compute. lia.
  - vm_compute. reflexivity.
  - exists st1, buf1. auto.
Defined.

(** C8 (the code misses what it visibly tries to do).  The write of a
    58 letter breed with age 1 and flag 0 is accepted (62 bytes), and its
    line has 67 bytes.  The read operation then stores 63 bytes of the
    line and a NUL, leaves the rest of the buffer as it was, and returns
    67: the line in the buffer has lost its end and its newline, and the
    value returned is not the number of bytes written.  [snprintf] returns
    the length the text would have had, and [dog_attr_show] adds that to
    [nbytes]. *)
Theorem show_counts_bytes_never_written :
  ∃ st buf',
    dog_attr_store alloc_ok long_line_input 62 init_state = Ret 62 st
    ∧ length (dump (dog_list st)) = 67%nat
    ∧ dog_attr_show (replicate 128 "x"%char) st = Ret (buf', 67) st
    ∧ take 63 buf' = take 63 (dump (dog_list st))
    ∧ drop 63 buf' = NUL :: replicate 64 "x"%char.
Proof. eexists _, _. repeat split; vm_compute; reflexivity. Qed.

(** ** The cut at 64 bytes *)

Lemma kstrndup_substring (s : string) : ∀ n,
  Klib.kstrndup (substring 0 n s) n = Klib.kstrndup s n.
Proof.
  induction s as [|c s IH]; intros [|n]; simpl; try reflexivity.
  destruct (Ascii.eqb c NUL); [reflexivity|]. rewrite IH. reflexivity.
Qed.

Lemma parse_dog_substring mem buf :
  parse_dog mem buf = parse_dog mem (substring 0 DOG_ENTRY_NBYTES buf).
Proof. unfold parse_dog. rewrite kstrndup_substring. reflexivity. Qed.

(** C9.  Whatever the written text, the store behaves as on its first 64
    bytes.  An instance: 74 bytes whose first 64 are a 60 letter breed,
    ",3" and ",1" are stored as that entry, although the third field goes
    on as "10 and more" past the cut. *)
Theorem store_reads_first_64_bytes :
  (∀ mem buf count st,
      dog_attr_store mem buf count st
      = dog_attr_store mem (substring 0 DOG_ENTRY_NBYTES buf) count st)
  ∧ String.length over_long_input = 74%nat
  ∧ dog_attr_store alloc_ok over_long_input 74 init_state
    = Ret 74 (list_add_tail {| breed := repeat_char 60 "B"; age := 3;
                               training_easy := true |} init_state).
Proof.
  split; [|split; vm_compute; reflexivity].
  intros mem buf count st. unfold dog_attr_store.
  rewrite <- parse_dog_substring. reflexivity.
Qed.

(** ** Three plain fields *)

Lemma plain_field_cons c s :
  plain_field (String c s) = true ↔
  Ascii.eqb c COMMA = false ∧ Ascii.eqb c NUL = false ∧ plain_field s = true.
Proof.
  unfold plain_field. simpl. rewrite !andb_true_iff, !negb_true_iff. tauto.
Qed.

Lemma binary_digits_cons c s :
  binary_digits (String c s) = true ↔
  (c = "0"%char ∨ c = "1"%char) ∧ binary_digits s = true.
Proof.
  unfold binary_digits. simpl.
  rewrite andb_true_iff, orb_true_iff, !Ascii.eqb_eq. tauto.
Qed.

Lemma binary_digits_plain s : binary_digits s = true → plain_field s = true.
Proof.
  induction s as [|c s IH]; [reflexivity|].
  rewrite binary_digits_cons, plain_field_cons. intros [Hc Hs].
  split; [|split; [|auto]]; destruct Hc; subst; reflexivity.
Qed.

(** [kstrndup] copies a text without NUL that is short enough as it is. *)
Lemma kstrndup_plain_app t : ∀ s n,
  plain_field t = true →
  Klib.kstrndup (t ++ s) (String.length t + n) = (t ++ Klib.kstrndup s n)%string.
Proof.
  induction t as [|c t IH]; intros s n Hp; [reflexivity|].
  apply plain_field_cons in Hp as (_ & Hnul & Hp). simpl. rewrite Hnul.
  rewrite IH by assumption. reflexivity.
Qed.

Lemma kstrndup_comma s n :
  Klib.kstrndup (String COMMA s) (S n) = String COMMA (Klib.kstrndup s n).
Proof. reflexivity. Qed.

Lemma kstrndup_plain t n :
  plain_field t = true → (String.length t ≤ n)%nat → Klib.kstrndup t n = t.
Proof.
  revert n. induction t as [|c t IH]; intros n Hp Hn.
  - destruct n; reflexivity.
  - apply plain_field_cons in Hp as (_ & Hnul & Hp). simpl in Hn.
    destruct n as [|n]; [lia|]. simpl. rewrite Hnul, IH by (auto; lia).
    reflexivity.
Qed.

Lemma strsep_tokens_plain t :
  plain_field t = true → Klib.strsep_tokens t = [t].
Proof.
  induction t as [|c t IH]; [reflexivity|].
  intros Hp. apply plain_field_cons in Hp as (Hc & _ & Hp). simpl.
  rewrite Hc, IH by assumption. reflexivity.
Qed.

Lemma strsep_tokens_plain_comma t s :
  plain_field t = true →
  Klib.strsep_tokens (t ++ String COMMA s) = t :: Klib.strsep_tokens s.
Proof.
  induction t as [|c t IH]; [reflexivity|].
  intros Hp. apply plain_field_cons in Hp as (Hc & _ & Hp). simpl.
  rewrite Hc, IH by assumption. reflexivity.
Qed.

Lemma string_length_app (s1 s2 : string) :
  String.length (s1 ++ s2) = (String.length s1 + String.length s2)%nat.
Proof. induction s1 as [|c s1 IH]; simpl; [reflexivity | rewrite IH; reflexivity]. Qed.

(** The written text [b,a,f] of at most 64 bytes is split in its three
    fields. *)
Lemma tokens_of_three_fields (b a f : string) :
  plain_field b = true → plain_field a = true → plain_field f = true →
  (String.length (b ++ String COMMA (a ++ String COMMA f))
   ≤ DOG_ENTRY_NBYTES)%nat →
  Klib.strsep_tokens
    (Klib.kstrndup (b ++ String COMMA (a ++ String COMMA f)) DOG_ENTRY_NBYTES)
  = [b; a; f].
Proof.
  intros Hb Ha Hf Hlen.
  assert (Hcut : Klib.kstrndup (b ++ String COMMA (a ++ String COMMA f))
                               DOG_ENTRY_NBYTES
                 = (b ++ String COMMA (a ++ String COMMA f))%string).
  { rewrite string_length_app in Hlen. simpl in Hlen.
    rewrite string_length_app in Hlen. simpl in Hlen.
    replace DOG_ENTRY_NBYTES
      with (String.length b
            + S (String.length a
                 + S (DOG_ENTRY_NBYTES - String.length b
                      - String.length a - 2)))%nat by lia.
    rewrite kstrndup_plain_app, kstrndup_comma, kstrndup_plain_app,
      kstrndup_comma, kstrndup_plain by (auto; lia).
    reflexivity. }
  rewrite Hcut, !strsep_tokens_plain_comma, strsep_tokens_plain by assumption.
  reflexivity.
Qed.

(** ** [kstrtoint] in base 2 *)

Lemma parse_integer_binary f : ∀ acc rv,
  binary_digits f = true →
  Klib._parse_integer f 2 acc rv
  = (fold_left (fun acc c => 2 * acc + (if Ascii.eqb c "1" then 1 else 0))
               (list_ascii_of_string f) acc,
     (rv + String.length f)%nat, EmptyString).
Proof.
  induction f as [|c f IH]; intros acc rv Hb.
  - simpl. rewrite Nat.add_0_r. reflexivity.
  - apply binary_digits_cons in Hb as [Hc Hb].
    destruct Hc; subst.
    + change (Klib._parse_integer (String "0" f) 2 acc rv)
        with (Klib._parse_integer f 2 (acc * 2 + 0) (S rv)).
      rewrite IH by assumption. simpl. f_equal.
      f_equal; [f_equal; lia | lia].
    + change (Klib._parse_integer (String "1" f) 2 acc rv)
        with (Klib._parse_integer f 2 (acc * 2 + 1) (S rv)).
      rewrite IH by assumption. simpl. f_equal.
      f_equal; [f_equal; lia | lia].
Qed.

Lemma fold_binary_bounds l : ∀ acc,
  0 ≤ acc →
  acc ≤ fold_left (fun acc c => 2 * acc + (if Ascii.eqb c "1" then 1 else 0))
                  l acc.
Proof.
  induction l as [|c l IH]; intros acc Hacc; simpl; [lia|].
  etransitivity; [|apply IH]; destruct (Ascii.eqb c "1"); lia.
Qed.

Lemma bin_value_nonneg f : 0 ≤ bin_value f.
Proof. apply fold_binary_bounds. lia. Qed.

Lemma fixup_radix_base_2 s : Klib._parse_integer_fixup_radix s 2 = s.
Proof. destruct s as [|c0 [|c1 s]]; reflexivity. Qed.

(** A non-empty string of binary digits whose value fits [int] is parsed
    to that value. *)
Lemma kstrtoint_binary f :
  f ≠ EmptyString → binary_digits f = true → bin_value f ≤ INT_MAX →
  Klib.kstrtoint f 2 = Klib.KOk (bin_value f).
Proof.
  intros Hne Hb Hmax. pose proof (bin_value_nonneg f) as Hpos.
  assert (Hu : Klib._kstrtoull f 2 = Klib.KOk (bin_value f)).
  { unfold Klib._kstrtoull. rewrite fixup_radix_base_2.
    rewrite parse_integer_binary by assumption. fold (bin_value f).
    destruct (ULLONG_MAX <? bin_value f) eqn:E.
    { apply Z.ltb_lt in E. unfold ULLONG_MAX, INT_MAX in *. lia. }
    destruct f; [congruence|]. reflexivity. }
  destruct f as [|c f]; [congruence|].
  apply binary_digits_cons in Hb as [Hc _].
  unfold Klib.kstrtoint, Klib.kstrtoll, Klib.kstrtoull.
  assert (Hsign : Ascii.eqb c "-" = false ∧ Ascii.eqb c "+" = false)
    by (destruct Hc; subst; split; reflexivity).
  destruct Hsign as [-> ->]. rewrite Hu.
  destruct (LLONG_MAX <? _) eqn:E1.
  { apply Z.ltb_lt in E1. unfold LLONG_MAX, INT_MAX in *. lia. }
  destruct (_ && _) eqn:E2; [reflexivity|].
  apply andb_false_iff in E2 as [E2|E2]; apply Z.leb_gt in E2;
    unfold INT_MIN, INT_MAX in *; lia.
Qed.

(** C10, as the claim states it, fails: 32 binary digits are a binary
    number, yet the write is answered with [-ERANGE] and nothing is
    stored, because [kstrtoint] only returns what fits an [int]. *)
Lemma store_flag_of_32_binary_digits :
  bin_value "10000000000000000000000000000000" = 2 ^ 31
  ∧ dog_attr_store alloc_ok "Pug,4,10000000000000000000000000000000" 38
                   init_state
    = Ret (- ERANGE) init_state.
Proof. split; vm_compute; reflexivity. Qed.

(** A non-empty string of binary digits whose value does not fit [int] is
    refused with [-ERANGE], wherever the value leaves the types on the
    way: [unsigned long long], [long long] or [int]. *)
Lemma kstrtoint_binary_too_large f :
  f ≠ EmptyString → binary_digits f = true → INT_MAX < bin_value f →
  Klib.kstrtoint f 2 = Klib.KErr (- ERANGE).
Proof.
  intros Hne Hb Hmax.
  assert (Hu : Klib._kstrtoull f 2
               = if ULLONG_MAX <? bin_value f then Klib.KErr (- ERANGE)
                 else Klib.KOk (bin_value f)).
  { unfold Klib._kstrtoull. rewrite fixup_radix_base_2.
    rewrite parse_integer_binary by assumption. fold (bin_value f).
    destruct (ULLONG_MAX <? bin_value f); [reflexivity|].
    destruct f; [congruence|]. reflexivity. }
  destruct f as [|c f]; [congruence|].
  apply binary_digits_cons in Hb as [Hc _].
  unfold Klib.kstrtoint, Klib.kstrtoll, Klib.kstrtoull.
  assert (Hsign : Ascii.eqb c "-" = false ∧ Ascii.eqb c "+" = false)
    by (destruct Hc; subst; split; reflexivity).
  destruct Hsign as [-> ->]. rewrite Hu.
  destruct (ULLONG_MAX <? _); [reflexivity|].
  destruct (LLONG_MAX <? _); [reflexivity|].
  destruct (_ && _) eqn:E2; [|reflexivity].
  apply andb_true_iff in E2 as [_ E2]. apply Z.leb_le in E2. lia.
Qed.

(** C10, as amended.  Take a written text of at most 64 bytes with a plain
    breed, an age [kstrtoint] accepts in base 10, and as third field any
    non-empty string of binary digits, of any number of digits.  If the
    value of the digits is at most [INT_MAX], the text is stored, and the
    flag of the new entry is true exactly when that value is not zero.  If
    the value is above [INT_MAX], the write returns [-ERANGE] and nothing
    is stored. *)
Theorem store_binary_flag (mem : alloc) (b a f : string)
        (count age_v : Z) (st : state) :
  kstrndup_ok mem = true → kmalloc_ok mem = true →
  plain_field b = true → plain_field a = true →
  (String.length (b ++ String COMMA (a ++ String COMMA f))
   ≤ DOG_ENTRY_NBYTES)%nat →
  Klib.kstrtoint a 10 = Klib.KOk age_v →
  f ≠ EmptyString → binary_digits f = true →
  dog_attr_store mem (b ++ String COMMA (a ++ String COMMA f)) count st
  = if bin_value f <=? INT_MAX
    then Ret (to_ssize count)
             (list_add_tail {| breed := b; age := age_v;
                               training_easy := negb (bin_value f =? 0) |} st)
    else Ret (- ERANGE) st.
Proof.
  intros Hk Hm Hb Ha Hlen Hage Hne Hbin.
  unfold dog_attr_store, parse_dog. rewrite Hk, Hm. simpl negb. cbv iota.
  rewrite tokens_of_three_fields by auto using binary_digits_plain.
  rewrite fill_dog_attr_three by reflexivity.
  simpl Nat.ltb. cbv iota. simpl nth. rewrite Hage.
  destruct (bin_value f <=? INT_MAX) eqn:E.
  - apply Z.leb_le in E. rewrite kstrtoint_binary by assumption. reflexivity.
  - apply Z.leb_gt in E. rewrite kstrtoint_binary_too_large by assumption.
    reflexivity.
Qed.

Lemma store_binary_flag_witness :
  dog_attr_store alloc_ok "Pug,4,10" 8 init_state
  = Ret 8 (list_add_tail {| breed := "Pug"; age := 4; training_easy := true |}
                         init_state)
  ∧ dog_attr_store alloc_ok "Pug,4,10000000000000000000000000000000000" 41
                   init_state
    = Ret (- ERANGE) init_state.
Proof.
  split.
  - pose proof (store_binary_flag alloc_ok "Pug" "4" "10" 8 4 init_state
                  eq_refl eq_refl eq_refl eq_refl) as H.
    apply H.
    + vm_compute. lia.
    + reflexivity.
    + discriminate.
    + reflexivity.
  - pose proof (store_binary_flag alloc_ok "Pug" "4"
                  "10000000000000000000000000000000000" 41 4 init_state
                  eq_refl eq_refl eq_refl eq_refl) as H.
    apply H.
    + vm_compute. lia.
    + reflexivity.
    + discriminate.
    + reflexivity.
Defined.

(* ===================================================================== *)
(** * Properties of the pointer level model                               *)
(* ===================================================================== *)

Module RcuFacts.
Import Rcu.

(** ** Chains *)

Lemma chain_ext h h' l : ∀ p,
  (∀ a, a ∈ l → next <$> h !! a = next <$> h' !! a) →
  chain h p l → chain h' p l.
Proof.
  induction l as [|x l IH]; intros p Hsame; simpl; [auto|].
  intros (-> & n & Hn & Hc). split; [reflexivity|].
  pose proof (Hsame x ltac:(left)) as Hx. rewrite Hn in Hx. simpl in Hx.
  destruct (h' !! x) as [n'|] eqn:Hn'; simpl in Hx; [|discriminate].
  injection Hx as Hx. exists n'. split; [reflexivity|]. rewrite <- Hx.
  apply IH; [|assumption]. intros a Ha. apply Hsame. by right.
Qed.

Lemma chain_alloc h l : ∀ p a,
  chain h p l → a ∈ l → is_Some (h !! a).
Proof.
  induction l as [|x l IH]; intros p a; simpl.
  - intros _ Ha. by apply elem_of_nil in Ha.
  - intros (-> & n & Hn & Hc) [->|Ha]%elem_of_cons; eauto.
Qed.

Lemma chain_head h p l :
  chain h p l → p = (match head l with Some a => Node a | None => Head end).
Proof. destruct l; simpl; [auto | by intros [-> _]]. Qed.

(** The forward pointer of a linked entry leads to the head or to the next
    linked entry. *)
Lemma chain_next h l : ∀ p a n,
  chain h p l → a ∈ l → h !! a = Some n →
  next n = Head ∨ ∃ b, next n = Node b ∧ b ∈ l.
Proof.
  induction l as [|x l IH]; intros p a n; simpl.
  - intros _ Ha. by apply elem_of_nil in Ha.
  - intros (-> & nx & Hnx & Hc) [->|Ha]%elem_of_cons Hn.
    + rewrite Hnx in Hn. injection Hn as <-.
      apply chain_head in Hc. destruct l as [|y l]; simpl in Hc; [by left|].
      right. exists y. split; [assumption|]. right. left.
    + destruct (IH _ _ _ Hc Ha Hn) as [?|(b & ? & ?)]; [by left|].
      right. exists b. split; [assumption|]. by right.
Qed.

Lemma chain_last_next h l : ∀ p a n,
  chain h p l → last l = Some a → h !! a = Some n → next n = Head.
Proof.
  induction l as [|x l IH]; intros p a n; simpl; [discriminate|].
  intros (-> & nx & Hnx & Hc). destruct l as [|y l].
  - simpl. intros [= <-] Hn. rewrite Hnx in Hn. injection Hn as <-.
    exact Hc.
  - intros Hl. apply (IH _ _ _ Hc). exact Hl.
Qed.

(** Appending the fresh entry [a] behind the last one. *)
Lemma chain_snoc h l a new : ∀ p,
  NoDup l → a ∉ l → next new = Head → chain h p l →
  match last l with
  | None => chain (<[a := new]> h) (Node a) (l ++ [a])
  | Some tl =>
      ∀ ntl, h !! tl = Some ntl →
             chain (<[tl := set_next_field (Node a) ntl]> (<[a := new]> h))
                   p (l ++ [a])
  end.
Proof.
  induction l as [|x l IH]; intros p Hnd Ha Hnew Hc.
  - simpl. split; [reflexivity|]. exists new.
    rewrite lookup_insert_eq, Hnew. auto.
  - simpl in Hc. destruct Hc as (-> & nx & Hnx & Hc).
    apply NoDup_cons in Hnd as [Hx Hnd].
    apply not_elem_of_cons in Ha as [Hax Ha].
    specialize (IH (next nx) Hnd Ha Hnew Hc).
    destruct l as [|y l].
    + simpl in *. intros ntl Hntl. rewrite Hnx in Hntl. injection Hntl as <-.
      split; [reflexivity|]. eexists. rewrite lookup_insert_eq.
      split; [reflexivity|]. simpl. split; [reflexivity|].
      exists new. rewrite lookup_insert_ne, lookup_insert_eq by congruence.
      rewrite Hnew. auto.
    + change (last (x :: y :: l)) with (last (y :: l)).
      destruct (last (y :: l)) as [tl|] eqn:Hl.
      * intros ntl Hntl. simpl. split; [reflexivity|]. exists nx.
        assert (tl ≠ x).
        { intros ->. apply Hx. eapply last_Some_elem_of. exact Hl. }
        rewrite !lookup_insert_ne by congruence.
        split; [assumption|]. apply IH. exact Hntl.
      * by apply last_None in Hl.
Qed.

(** ** Each step keeps the invariant *)

Lemma inv_init : inv init [].
Proof.
  constructor; simpl; try done. constructor.
Qed.

Lemma inv_rd_lock st l t :
  inv st l → readers st !! t = None →
  inv (with_readers (<[t := {| cursor := Entered;
                               unlinked_since := ∅ |}]> (readers st)) st) l.
Proof.
  intros [Hch Hnd Htl Hfp Hlk Hq Hfr Haw Hcu Hqn Hun] Ht.
  constructor; simpl; auto.
  - intros a w t' Hcb Ht'. rewrite lookup_insert_is_Some'. right. eauto.
  - intros t' r a. rewrite lookup_insert. case_decide as Htt; [|eauto].
    intros [= <-]. discriminate.
  - intros t' r a. rewrite lookup_insert. case_decide as Htt; [|eauto].
    intros [= <-]. simpl. intros Ha. by apply not_elem_of_empty in Ha.
Qed.

Lemma inv_rd_first st l t r :
  inv st l → readers st !! t = Some r →
  inv (with_readers (<[t := {| cursor := At (head_next st);
                               unlinked_since := unlinked_since r |}]>
                       (readers st)) st) l.
Proof.
  intros [Hch Hnd Htl Hfp Hlk Hq Hfr Haw Hcu Hqn Hun] Ht.
  constructor; simpl; auto.
  - intros a w t' Hcb Ht'. rewrite lookup_insert_is_Some'. right. eauto.
  - intros t' r' a. rewrite lookup_insert. case_decide as Htt; [|eauto].
    intros [= <-]. simpl. intros [= Hhd]. left.
    apply chain_head in Hch. rewrite Hhd in Hch.
    destruct l as [|x l]; simpl in Hch; [discriminate|].
    injection Hch as ->. left.
  - intros t' r' a. rewrite lookup_insert. case_decide as Htt; [|eauto].
    intros [= <-]. simpl. subst t'. eauto.
Qed.

Lemma inv_rd_visit st l t r a n :
  inv st l → readers st !! t = Some r → cursor r = At (Node a) →
  heap st !! a = Some n →
  inv (with_readers (<[t := {| cursor := At (next n);
                               unlinked_since := unlinked_since r |}]>
                       (readers st)) st) l.
Proof.
  intros [Hch Hnd Htl Hfp Hlk Hq Hfr Haw Hcu Hqn Hun] Ht Hcur Hn.
  constructor; simpl; auto.
  - intros a' w t' Hcb Ht'. rewrite lookup_insert_is_Some'. right. eauto.
  - intros t' r' b. rewrite lookup_insert. case_decide as Htt; [|eauto].
    intros [= <-]. simpl. intros [= Hnext]. subst t'.
    destruct (Hcu _ _ _ Ht Hcur) as [Hin|(w & Hw & Htw)].
    + destruct (chain_next _ _ _ _ _ Hch Hin Hn) as [Hh|(b' & Hb' & Hin')];
        [congruence|]. left. congruence.
    + eauto.
  - intros t' r' b. rewrite lookup_insert. case_decide as Htt; [|eauto].
    intros [= <-]. simpl. subst t'. eauto.
Qed.

Lemma inv_rd_unlock st l t :
  inv st l →
  inv (with_callbacks ((fun w : gset tid => w ∖ {[t]}) <$> callbacks st)
         (with_readers (delete t (readers st)) st)) l.
Proof.
  intros [Hch Hnd Htl Hfp Hlk Hq Hfr Haw Hcu Hqn Hun].
  constructor; simpl; auto.
  - intros a Ha. destruct (Hlk a Ha) as [? Hnone]. split; [assumption|].
    rewrite lookup_fmap, Hnone. reflexivity.
  - intros a w. rewrite lookup_fmap.
    destruct (callbacks st !! a) as [w0|] eqn:E; simpl; [|discriminate].
    intros _. eauto.
  - intros a w t'. rewrite lookup_fmap.
    destruct (callbacks st !! a) as [w0|] eqn:E; simpl; [|discriminate].
    intros [= <-] [Ht' Hne%not_elem_of_singleton]%elem_of_difference.
    rewrite lookup_delete_ne by congruence. eauto.
  - intros t' r a. rewrite lookup_delete. case_decide as Htt; [discriminate|].
    intros Hr Hc. destruct (Hcu _ _ _ Hr Hc) as [?|(w & Hw & Htw)]; [by left|].
    right. exists (w ∖ {[t]}). rewrite lookup_fmap, Hw. split; [reflexivity|].
    clear -Htw Htt. set_solver.
  - intros a w t' n b. rewrite lookup_fmap.
    destruct (callbacks st !! a) as [w0|] eqn:E; simpl; [|discriminate].
    intros [= <-] [Ht' Hne%not_elem_of_singleton]%elem_of_difference Hn Hb.
    destruct (Hqn _ _ _ _ _ E Ht' Hn Hb) as [?|(w' & Hw' & Htw')]; [by left|].
    right. exists (w' ∖ {[t]}). rewrite lookup_fmap, Hw'.
    split; [reflexivity|]. clear -Htw' Hne. set_solver.
  - intros t' r a. rewrite lookup_delete. case_decide as Htt; [discriminate|].
    intros Hr Ha. destruct (Hun _ _ _ Hr Ha) as (w & Hw & Htw).
    exists (w ∖ {[t]}). rewrite lookup_fmap, Hw. split; [reflexivity|].
    clear -Htw Htt. set_solver.
Qed.

Lemma inv_free st l a :
  inv st l → callbacks st !! a = Some ∅ →
  inv {| heap := heap st; freed := {[a]} ∪ freed st;
         head_next := head_next st; head_prev := head_prev st;
         list_size := list_size st; readers := readers st;
         callbacks := delete a (callbacks st) |} l.
Proof.
  intros [Hch Hnd Htl Hfp Hlk Hq Hfr Haw Hcu Hqn Hun] Ha.
  assert (Hother : ∀ b (w : gset tid) t,
             callbacks st !! b = Some w → t ∈ w →
             delete a (callbacks st) !! b = Some w).
  { intros b w t Hb Ht. rewrite lookup_delete_ne; [assumption|].
    intros ->. rewrite Ha in Hb. injection Hb as <-. set_solver. }
  constructor; simpl; auto.
  - intros b Hb. destruct (Hlk b Hb) as [Hnf Hnone].
    assert (Hab : a ≠ b) by (intros ->; congruence).
    split; [|by rewrite lookup_delete_ne].
    rewrite not_elem_of_union, not_elem_of_singleton. split; [congruence|done].
  - intros b w. rewrite lookup_delete. case_decide as Hab; [discriminate|].
    intros Hb. destruct (Hq b w Hb) as [? Hnf]. split; [assumption|].
    rewrite not_elem_of_union, not_elem_of_singleton. split; [congruence|done].
  - intros b [->%elem_of_singleton|Hb]%elem_of_union; [|auto].
    by destruct (Hq _ _ Ha).
  - intros b w t. rewrite lookup_delete. case_decide; [discriminate|]. eauto.
  - intros t r b Hr Hc. destruct (Hcu _ _ _ Hr Hc) as [?|(w & Hw & Htw)]; eauto.
  - intros b w t n c. rewrite lookup_delete. case_decide; [discriminate|].
    intros Hb Ht Hn Hc.
    destruct (Hqn _ _ _ _ _ Hb Ht Hn Hc) as [?|(w' & Hw' & Htw')]; eauto.
  - intros t r b Hr Hb. destruct (Hun _ _ _ Hr Hb) as (w & Hw & Htw). eauto.
Qed.

(** The list after [list_add_tail_rcu]: any heap and head pointer that
    spell [l ++ [a]] and differ from the old ones only at the new entry
    and in the entries of [l]. *)
Lemma inv_append st l a new h' hn sz :
  inv st l → heap st !! a = None →
  chain h' hn (l ++ [a]) →
  h' !! a = Some new →
  (l = [] → prev new = Head) →
  (∀ x, x ∉ l → x ≠ a → h' !! x = heap st !! x) →
  (∀ x, is_Some (heap st !! x) → is_Some (h' !! x)) →
  (∀ x n n', x ∈ l → heap st !! x = Some n → h' !! x = Some n' →
             prev n' = prev n) →
  inv {| heap := h'; freed := freed st; head_next := hn;
         head_prev := Node a; list_size := sz;
         readers := readers st; callbacks := callbacks st |} (l ++ [a]).
Proof.
  intros [Hch Hnd Htl Hfp Hlk Hq Hfr Haw Hcu Hqn Hun] Ha Hch' Hnew Hprev
         Hsame Hsome Hprevs.
  assert (Hal : a ∉ l).
  { intros Hin. destruct (chain_alloc _ _ _ _ Hch Hin) as [n Hn]. congruence. }
  constructor; simpl; auto.
  - apply NoDup_app. split; [assumption|]. split; [|apply NoDup_singleton].
    intros x Hx ->%list_elem_of_singleton. contradiction.
  - by rewrite last_snoc.
  - intros x n'. destruct l as [|y l0] eqn:El.
    + simpl. intros [= <-] Hx. rewrite Hnew in Hx. injection Hx as <-. auto.
    + simpl. intros [= <-] Hx.
      destruct (chain_alloc _ _ _ y Hch) as [n Hn]; [left|].
      rewrite (Hprevs y n n'); [eapply Hfp; [reflexivity|eassumption] | left
                                | assumption | assumption].
  - intros x [Hx| ->%list_elem_of_singleton]%elem_of_app; [auto|].
    split.
    + intros Hf. destruct (Hfr _ Hf) as [n Hn]. congruence.
    + destruct (callbacks st !! a) as [w|] eqn:E; [|reflexivity].
      destruct (Hq _ _ E) as [[n Hn] _]. congruence.
  - intros x w Hx. destruct (Hq _ _ Hx). auto.
  - intros t r x Hr Hc. destruct (Hcu _ _ _ Hr Hc) as [Hin|?]; [|by right].
    left. apply elem_of_app. by left.
  - intros x w t n b Hx Ht Hn Hb.
    assert (Hxl : x ∉ l) by (intros Hin; destruct (Hlk _ Hin); congruence).
    assert (Hxa : x ≠ a).
    { intros ->. destruct (Hq _ _ Hx) as [[? ?] _]. congruence. }
    rewrite Hsame in Hn by assumption.
    destruct (Hqn _ _ _ _ _ Hx Ht Hn Hb) as [Hin|?]; [|by right].
    left. apply elem_of_app. by left.
Qed.

(** The list after [list_del_rcu] and [kfree_rcu] of its first entry: the
    forward pointers are as before. *)
Lemma inv_remove st a l n h' hp sz :
  inv st (a :: l) → heap st !! a = Some n →
  (∀ x, next <$> h' !! x = next <$> heap st !! x) →
  (∀ x n', head l = Some x → h' !! x = Some n' → prev n' = Head) →
  hp = (match last l with Some x => Node x | None => Head end) →
  inv {| heap := h'; freed := freed st; head_next := next n;
         head_prev := hp; list_size := sz;
         readers := note_unlinked a <$> readers st;
         callbacks := <[a := dom (readers st)]> (callbacks st) |} l.
Proof.
  intros [Hch Hnd Htl Hfp Hlk Hq Hfr Haw Hcu Hqn Hun] Hn Hnext Hprev Hhp.
  assert (Hsome : ∀ x, is_Some (h' !! x) ↔ is_Some (heap st !! x)).
  { intros x. rewrite <- (fmap_is_Some next (h' !! x)), Hnext.
    apply fmap_is_Some. }
  simpl in Hch. destruct Hch as (_ & n0 & Hn0 & Hch).
  rewrite Hn in Hn0. injection Hn0 as <-.
  apply NoDup_cons in Hnd as [Hal Hnd].
  destruct (Hlk a ltac:(left)) as [Hafree Hacb].
  constructor; simpl; auto.
  - eapply chain_ext; [|exact Hch]. intros x _. symmetry. apply Hnext.
  - intros x Hx. destruct (Hlk x ltac:(by right)) as [? ?].
    split; [assumption|]. rewrite lookup_insert_ne; [assumption|].
    intros ->. contradiction.
  - intros x w. rewrite lookup_insert. case_decide as Hax.
    + subst x. intros _. split; [|assumption]. apply Hsome. eauto.
    + intros Hx. destruct (Hq _ _ Hx). split; [|assumption]. by apply Hsome.
  - intros x Hx. apply Hsome. auto.
  - intros x w t. rewrite lookup_insert, lookup_fmap. case_decide as Hax.
    + intros [= <-] [r Hr]%elem_of_dom. rewrite Hr. simpl. eauto.
    + intros Hx Ht. destruct (Haw _ _ _ Hx Ht) as [r Hr]. rewrite Hr.
      simpl. eauto.
  - intros t r x. rewrite lookup_fmap.
    destruct (readers st !! t) as [r0|] eqn:Hr; simpl; [|discriminate].
    intros [= <-]. simpl. intros Hc.
    destruct (Hcu _ _ _ Hr Hc) as [[->|Hin]%elem_of_cons|(w & Hw & Htw)].
    + right. exists (dom (readers st)). rewrite lookup_insert_eq.
      split; [reflexivity|]. apply elem_of_dom. eauto.
    + by left.
    + right. exists w. rewrite lookup_insert_ne; [auto|].
      intros ->. congruence.
  - intros x w t n' b Hx Ht Hn' Hb.
    assert (Hb' : ∃ m, heap st !! x = Some m ∧ next m = Node b).
    { pose proof (Hnext x) as Hnx. rewrite Hn' in Hnx. simpl in Hnx.
      destruct (heap st !! x) as [m|]; simpl in Hnx; [|discriminate].
      exists m. split; [reflexivity|]. congruence. }
    destruct Hb' as (m & Hm & Hmb).
    assert (Hreader : is_Some (readers st !! t)).
    { revert Hx. rewrite lookup_insert. case_decide.
      - intros [= <-]. by apply elem_of_dom.
      - intros Hx. eauto. }
    assert (Hqueue_a : ∃ w', <[a := dom (readers st)]> (callbacks st) !! a
                             = Some w' ∧ t ∈ w').
    { exists (dom (readers st)). rewrite lookup_insert_eq.
      split; [reflexivity|]. by apply elem_of_dom. }
    revert Hx. rewrite lookup_insert. case_decide as Hax.
    + subst x. intros _. rewrite Hn in Hm. injection Hm as <-.
      apply chain_head in Hch. rewrite Hmb in Hch.
      destruct l as [|y l]; simpl in Hch; [discriminate|].
      injection Hch as ->. left. left.
    + intros Hx.
      destruct (Hqn _ _ _ _ _ Hx Ht Hm Hmb)
        as [[->|Hin]%elem_of_cons|(w' & Hw' & Htw')].
      * by right.
      * by left.
      * right. exists w'. rewrite lookup_insert_ne; [auto|].
        intros ->. congruence.
  - intros t r x. rewrite lookup_fmap.
    destruct (readers st !! t) as [r0|] eqn:Hr; simpl; [|discriminate].
    intros [= <-]. simpl. intros [->%elem_of_singleton|Hx]%elem_of_union.
    + exists (dom (readers st)). rewrite lookup_insert_eq.
      split; [reflexivity|]. apply elem_of_dom. eauto.
    + destruct (Hun _ _ _ Hr Hx) as (w & Hw & Htw). exists w.
      rewrite lookup_insert_ne; [auto|]. intros ->. congruence.
Qed.

(** ** The two updaters never fault *)

(** [dog_attr_store] on a fresh object: the entry becomes the last one. *)
Lemma store_step st l a d :
  inv st l → heap st !! a = None →
  ∃ st', do_action (Store a d) st = Some st'
         ∧ inv st' (l ++ [a])
         ∧ payload <$> heap st' !! a = Some d
         ∧ (∀ x, x ≠ a → payload <$> heap st' !! x = payload <$> heap st !! x)
         ∧ list_size st' = wrap_size (list_size st + 1).
Proof.
  intros Hinv Ha.
  pose proof (inv_chain _ _ Hinv) as Hch.
  pose proof (inv_tail _ _ Hinv) as Htl.
  set (new := {| payload := d; next := Head; prev := head_prev st |}).
  assert (Hal : a ∉ l).
  { intros Hin. destruct (chain_alloc _ _ _ _ Hch Hin) as [n Hn]. congruence. }
  pose proof (chain_snoc (heap st) l a new (head_next st)
                (inv_nodup _ _ Hinv) Hal eq_refl Hch) as Hsnoc.
  unfold do_action. rewrite Ha. unfold list_add_tail_rcu. fold new.
  destruct (last l) as [tl|] eqn:Hl.
  - assert (Htlin : tl ∈ l) by (eapply last_Some_elem_of; eassumption).
    destruct (chain_alloc _ _ _ _ Hch Htlin) as [ntl Hntl].
    assert (Hne : a ≠ tl) by (intros ->; contradiction).
    rewrite Htl. simpl. rewrite lookup_insert_ne, Hntl by assumption. simpl.
    eexists. split; [reflexivity|]. split.
    + apply (inv_append st l a new); auto.
      * rewrite lookup_insert_ne, lookup_insert_eq by congruence. reflexivity.
      * intros ->. discriminate.
      * intros x Hx Hxa. rewrite !lookup_insert_ne; [reflexivity|congruence|].
        intros ->. contradiction.
      * intros x Hx. rewrite !lookup_insert_is_Some'. auto.
      * intros x n n' Hx Hn. rewrite lookup_insert. case_decide as Hxt.
        -- intros [= <-]. subst x. rewrite Hntl in Hn. by injection Hn as <-.
        -- rewrite lookup_insert_ne by (intros ->; contradiction). congruence.
    + simpl. rewrite lookup_insert_ne, lookup_insert_eq by congruence.
      split; [reflexivity|]. split; [|reflexivity].
      intros x Hxa. rewrite lookup_insert. case_decide as Hxt.
      * subst x. rewrite Hntl. reflexivity.
      * by rewrite lookup_insert_ne.
  - apply last_None in Hl. subst l. rewrite Htl. simpl.
    eexists. split; [reflexivity|]. split.
    + apply (inv_append st [] a new); auto.
      * apply lookup_insert_eq.
      * intros x _ Hxa. by rewrite lookup_insert_ne.
      * intros x Hx. rewrite lookup_insert_is_Some'. auto.
      * intros x n n' Hx. by apply elem_of_nil in Hx.
    + simpl. rewrite lookup_insert_eq. split; [reflexivity|].
      split; [|reflexivity]. intros x Hxa. by rewrite lookup_insert_ne.
Qed.

(** [timer_remove_dog] on a list that is not empty: the first entry is
    unlinked and queued, waiting for every section in progress. *)
Lemma timer_step st a l :
  inv st (a :: l) →
  ∃ st', do_action Timer st = Some st'
         ∧ inv st' l
         ∧ callbacks st' !! a = Some (dom (readers st))
         ∧ (∀ x, payload <$> heap st' !! x = payload <$> heap st !! x)
         ∧ list_size st' = list_size st.
Proof.
  intros Hinv.
  pose proof (inv_chain _ _ Hinv) as Hch. simpl in Hch.
  destruct Hch as (Hhd & n & Hn & Hch).
  pose proof (inv_first_prev _ _ Hinv a n eq_refl Hn) as Hprev.
  pose proof (inv_tail _ _ Hinv) as Htl.
  pose proof (inv_nodup _ _ Hinv) as [Hal Hnd]%NoDup_cons.
  unfold do_action. rewrite Hhd. unfold list_del_rcu. rewrite Hn. simpl.
  rewrite Hprev. destruct l as [|b l].
  - simpl in Hch. rewrite Hch. simpl. rewrite Hn. simpl.
    eexists. split; [reflexivity|]. split; [|split; [apply lookup_insert_eq|]].
    + pose proof (inv_remove st a [] n
                    (<[a := set_prev_field Poison n]> (heap st)) Head
                    (list_size st) Hinv Hn) as H.
      rewrite Hch in H. apply H; [|discriminate|reflexivity].
      intros x. rewrite lookup_insert. case_decide; [|reflexivity].
      subst x. rewrite Hn. reflexivity.
    + simpl. split; [|reflexivity]. intros x. rewrite lookup_insert.
      case_decide; [|reflexivity]. subst x. rewrite Hn. reflexivity.
  - simpl in Hch. destruct Hch as (Hnb & nb & Hb & Hch).
    assert (Hab : a ≠ b) by (intros ->; apply Hal; left).
    rewrite Hnb. simpl. rewrite Hb. simpl.
    rewrite lookup_insert_ne, Hn by congruence. simpl.
    eexists. split; [reflexivity|]. split; [|split; [apply lookup_insert_eq|]].
    + pose proof (inv_remove st a (b :: l) n
                    (<[a := set_prev_field Poison n]>
                       (<[b := set_prev_field Head nb]> (heap st)))
                    (head_prev st) (list_size st) Hinv Hn) as H.
      rewrite Hnb in H. apply H.
      * intros x. rewrite !lookup_insert. repeat case_decide; subst;
          rewrite ?Hn, ?Hb; reflexivity.
      * simpl. intros x n' [= <-].
        rewrite lookup_insert_ne, lookup_insert_eq by congruence.
        by intros [= <-].
      * rewrite Htl. reflexivity.
    + simpl. split; [|reflexivity]. intros x. rewrite !lookup_insert.
      repeat case_decide; subst; rewrite ?Hn, ?Hb; reflexivity.
Qed.

(** On an empty list the timer callback changes nothing. *)
Lemma timer_step_empty st : inv st [] → do_action Timer st = Some st.
Proof.
  intros Hinv. pose proof (inv_chain _ _ Hinv) as Hch. simpl in Hch.
  unfold do_action. rewrite Hch. reflexivity.
Qed.

(** ** The sequential model is what the updaters see

    The dogs along the linked entries and the counter change under the
    two updaters as [dog_list] and [dog_list_size] do under
    [list_add_tail] and [remove_first]. *)

Lemma dogs_of_ext h h' l :
  (∀ x, x ∈ l → payload <$> h' !! x = payload <$> h !! x) →
  dogs_of h' l = dogs_of h l.
Proof.
  induction l as [|x l IH]; intros Hsame; [reflexivity|].
  assert (Hl : dogs_of h' l = dogs_of h l).
  { apply IH. intros y Hy. apply Hsame. by right. }
  unfold dogs_of in *. simpl. rewrite (Hsame x) by left.
  destruct (payload <$> h !! x); [f_equal|]; exact Hl.
Qed.

Lemma store_refines st l a d st' (s : state) :
  inv st l → do_action (Store a d) st = Some st' →
  dog_list s = dogs_of (heap st) l → dog_list_size s = list_size st →
  dog_list (list_add_tail d s) = dogs_of (heap st') (l ++ [a])
  ∧ dog_list_size (list_add_tail d s) = list_size st'.
Proof.
  intros Hinv Hdo Hl Hsz.
  assert (Ha : heap st !! a = None).
  { simpl in Hdo. by destruct (heap st !! a). }
  destruct (store_step st l a d Hinv Ha) as (st1 & Hst1 & _ & Hpa & Hp & Hs).
  rewrite Hdo in Hst1. injection Hst1 as <-. simpl. rewrite Hl, Hsz, Hs.
  split; [|reflexivity]. unfold dogs_of at 2. rewrite omap_app. simpl.
  rewrite Hpa. simpl. f_equal. symmetry. apply dogs_of_ext.
  intros x Hx. apply Hp. intros ->.
  destruct (chain_alloc _ _ _ _ (inv_chain _ _ Hinv) Hx) as [n Hn]. congruence.
Qed.

Lemma timer_refines st l st' (s : state) :
  inv st l → do_action Timer st = Some st' →
  dog_list s = dogs_of (heap st) l → dog_list_size s = list_size st →
  dog_list (remove_first s) = dogs_of (heap st') (tail l)
  ∧ dog_list_size (remove_first s) = list_size st'.
Proof.
  intros Hinv Hdo Hl Hsz. destruct l as [|a l].
  - rewrite (timer_step_empty st Hinv) in Hdo. injection Hdo as <-.
    unfold remove_first. rewrite Hl. simpl. rewrite Hl. auto.
  - destruct (timer_step st a l Hinv) as (st1 & Hst1 & _ & _ & Hp & Hs).
    rewrite Hdo in Hst1. injection Hst1 as <-.
    destruct (chain_alloc _ _ _ a (inv_chain _ _ Hinv)) as [n Hn]; [left|].
    unfold remove_first. rewrite Hl. unfold dogs_of at 1 2. simpl.
    rewrite Hn. simpl. split; [|congruence].
    symmetry. apply dogs_of_ext. auto.
Qed.

(** Every step that happens keeps the invariant. *)
Lemma inv_step act st st' l :
  inv st l → do_action act st = Some st' → ∃ l', inv st' l'.
Proof.
  intros Hinv. destruct act as [t|t|t|t|a d| |a]; simpl.
  - destruct (readers st !! t) eqn:Ht; [discriminate|]. intros [= <-].
    exists l. by apply inv_rd_lock.
  - destruct (readers st !! t) as [r|] eqn:Ht; [|discriminate]. simpl.
    destruct (cursor r); try discriminate. intros [= <-].
    exists l. by apply inv_rd_first.
  - destruct (readers st !! t) as [r|] eqn:Ht; [|discriminate]. simpl.
    destruct (cursor r) as [|[|a|]] eqn:Hc; try discriminate.
    destruct (heap st !! a) as [n|] eqn:Hn; [|discriminate]. simpl.
    intros [= <-]. exists l. by eapply inv_rd_visit.
  - destruct (readers st !! t) as [r|] eqn:Ht; [|discriminate]. simpl.
    destruct (cursor r) as [|[| |]]; try discriminate. intros [= <-].
    exists l. by apply inv_rd_unlock.
  - destruct (heap st !! a) eqn:Ha; [discriminate|].
    destruct (store_step st l a d Hinv Ha) as (st1 & Hst1 & Hinv1 & _).
    simpl in Hst1. rewrite Ha in Hst1. rewrite Hst1. intros [= <-]. eauto.
  - destruct l as [|a l].
    + pose proof (timer_step_empty st Hinv) as H. simpl in H. rewrite H.
      intros [= <-]. eauto.
    + destruct (timer_step st a l Hinv) as (st1 & Hst1 & Hinv1 & _).
      simpl in Hst1. rewrite Hst1. intros [= <-]. eauto.
  - destruct (callbacks st !! a) as [w|] eqn:Hw; [|discriminate]. simpl.
    case_decide as Hwe; [|discriminate]. subst w. intros [= <-].
    exists l. by apply inv_free.
Qed.

Lemma inv_run acts : ∀ st st' l,
  inv st l → run acts st = Some st' → ∃ l', inv st' l'.
Proof.
  induction acts as [|act acts IH]; intros st st' l Hinv; simpl.
  - intros [= <-]. eauto.
  - destruct (do_action act st) as [st1|] eqn:E; [|discriminate]. simpl.
    destruct (inv_step _ _ _ _ Hinv E) as [l1 Hinv1]. eauto.
Qed.

Lemma inv_reader_safe st l t r :
  inv st l → readers st !! t = Some r → reader_safe st r.
Proof.
  intros Hinv Hr. split.
  - intros a Hc.
    destruct (inv_cursor _ _ Hinv _ _ _ Hr Hc) as [Hin|(w & Hw & _)].
    + split; [eapply chain_alloc; eauto using inv_chain|].
      by destruct (inv_linked _ _ Hinv a Hin).
    + eapply inv_queued; eauto.
  - intros a Ha. destruct (inv_unlinked _ _ Hinv _ _ _ Hr Ha) as (w & Hw & _).
    eapply inv_queued; eauto.
Qed.

(** C3.  In every state the module reaches from its initial state by any
    interleaving of reader steps, stores, timer callbacks and
    reclamations, and for every read-side critical section in progress:
    the entry the reader is at is allocated and has not been freed, and no
    entry unlinked since the section began has been freed.  The grace
    period is the kernel's: [kfree_rcu] is taken with its contract, as
    [Rcu.kfree_rcu] and the step [Rcu.Free] state it. *)
Theorem readers_never_see_freed_memory (acts : list action) (st : cstate)
        (t : tid) (r : reader) :
  run acts init = Some st →
  readers st !! t = Some r →
  reader_safe st r.
Proof.
  intros Hrun Hr. destruct (inv_run _ _ _ _ inv_init Hrun) as [l Hinv].
  eapply inv_reader_safe; eauto.
Qed.

(** A reader that entered before two removals and stands on the second
    removed entry. *)
Lemma readers_never_see_freed_memory_witness :
  let d := {| breed := "Pug"; age := 4; training_easy := true |} in
  ∃ st r,
    run [Store 1 d; Store 2 d; RdLock 7; RdFirst 7; Timer; RdVisit 7; Timer]
        init
    = Some st
    ∧ readers st !! 7%nat = Some r
    ∧ cursor r = At (Node 2)
    ∧ reader_safe st r.
Proof.
  intros d.
  destruct (run [Store 1 d; Store 2 d; RdLock 7; RdFirst 7; Timer; RdVisit 7;
                 Timer] init)
    as [st|] eqn:Hrun; [|vm_compute in Hrun; discriminate].
  destruct (readers st !! 7%nat) as [r|] eqn:Hr.
  - exists st, r. split; [reflexivity|]. split; [exact Hr|]. split.
    + vm_compute in Hrun. injection Hrun as <-. vm_compute in Hr.
      injection Hr as <-. reflexivity.
    + exact (readers_never_see_freed_memory _ st 7%nat r Hrun Hr).
  - vm_compute in Hrun. injection Hrun as <-. vm_compute in Hr. discriminate.
Defined.

(** While that reader is in its critical section the entry it passed
    cannot be freed; once the reader has left, it can.  A reader that
    enters after the removal does not delay the free. *)
Example free_waits_for_reader :
  let d := {| breed := "Pug"; age := 4; training_easy := true |} in
  run [Store 1 d; RdLock 7; RdFirst 7; Timer; Free 1] init = None
  ∧ (freed <$> run [Store 1 d; RdLock 7; RdFirst 7; Timer; RdVisit 7;
                    RdUnlock 7; Free 1] init) = Some {[1%nat]}
  ∧ (freed <$> run [Store 1 d; Timer; RdLock 7; Free 1; RdFirst 7;
                    RdUnlock 7] init) = Some {[1%nat]}.
Proof. repeat split; vm_compute; reflexivity. Qed.

End RcuFacts.

(* ===================================================================== *)
(** * Further properties of the sequential model                          *)
(* ===================================================================== *)

(** ** What a store can return *)

Lemma kstrtoint_range s base v :
  Klib.kstrtoint s base = Klib.KOk v → INT_MIN ≤ v ≤ INT_MAX.
Proof.
  unfold Klib.kstrtoint. destruct (Klib.kstrtoll s base) as [tmp|e];
    [|discriminate].
  destruct (_ && _) eqn:E; [|discriminate]. intros [= <-].
  apply andb_true_iff in E as [E1 E2].
  apply Z.leb_le in E1. apply Z.leb_le in E2. lia.
Qed.

Lemma parse_dog_enomem mem buf :
  parse_dog mem buf = Early (- ENOMEM) →
  kstrndup_ok mem = false ∨ kmalloc_ok mem = false.
Proof.
  unfold parse_dog. intros H.
  destruct (kstrndup_ok mem); [|by left]. destruct (kmalloc_ok mem); [|by right].
  exfalso. simpl in H. repeat case_match; simplify_eq;
    match goal with
    | H : Klib.kstrtoint _ _ = Klib.KErr _ |- _ =>
        apply kstrtoint_error in H; unfold ENOMEM, EINVAL, ERANGE in H; lia
    end.
Qed.

Lemma parse_dog_age mem buf entry :
  parse_dog mem buf = Parsed entry → INT_MIN ≤ age entry ≤ INT_MAX.
Proof.
  unfold parse_dog. intros H. repeat case_match; simplify_eq. simpl.
  eapply kstrtoint_range. eassumption.
Qed.

(** X1.  A store that returns either fails with [-ENOMEM], [-EINVAL] or
    [-ERANGE] and leaves every global as it was, or returns [count] and has
    appended exactly one entry, whose age fits an [int]; [-ENOMEM] is
    returned only when one of the two allocations failed. *)
Theorem store_all_or_nothing (mem : alloc) (buf : string) (count : Z)
        (st st' : state) (ret : Z) :
  dog_attr_store mem buf count st = Ret ret st' →
  ((ret = - ENOMEM ∧ (kstrndup_ok mem = false ∨ kmalloc_ok mem = false)
    ∨ ret = - EINVAL ∨ ret = - ERANGE) ∧ st' = st)
  ∨ (ret = to_ssize count
     ∧ ∃ entry, st' = list_add_tail entry st
                ∧ INT_MIN ≤ age entry ≤ INT_MAX).
Proof.
  unfold dog_attr_store. destruct (parse_dog mem buf) as [entry|r|] eqn:E;
    intros [= <- <-].
  - right. split; [reflexivity|]. exists entry. split; [reflexivity|].
    eapply parse_dog_age. eassumption.
  - left. split; [|reflexivity].
    destruct (parse_dog_early _ _ _ E) as [->|[->| ->]]; auto.
    left. split; [reflexivity|]. by apply (parse_dog_enomem mem buf).
Qed.

Lemma store_all_or_nothing_witness :
  (- EINVAL = - ENOMEM ∧ (kstrndup_ok alloc_ok = false
                          ∨ kmalloc_ok alloc_ok = false)
   ∨ - EINVAL = - EINVAL ∨ - EINVAL = - ERANGE) ∧ init_state = init_state
  ∨ (- EINVAL = to_ssize 7
     ∧ ∃ entry, init_state = list_add_tail entry init_state
                ∧ INT_MIN ≤ age entry ≤ INT_MAX).
Proof.
  apply (store_all_or_nothing alloc_ok "Pug,x,1" 7 init_state init_state).
  reflexivity.
Defined.

(** ** The number of fields *)

Lemma strsep_tokens_commas s :
  length (Klib.strsep_tokens s) = S (commas s).
Proof.
  unfold commas. induction s as [|c s IH]; [reflexivity|].
  simpl. rewrite filter_cons. destruct (Ascii.eqb c COMMA) eqn:E.
  - apply Ascii.eqb_eq in E. rewrite decide_True by assumption.
    simpl. rewrite IH. reflexivity.
  - apply Ascii.eqb_neq in E. rewrite decide_False by assumption.
    destruct (Klib.strsep_tokens s); simpl in *; [discriminate | exact IH].
Qed.

(** X2.  When the allocation of the copy succeeds and the first 64 bytes
    of the written text hold fewer than two commas, the store returns
    [-EINVAL] and changes nothing, whatever else the text holds. *)
Theorem store_fewer_than_two_commas (mem : alloc) (buf : string) (count : Z)
        (st : state) :
  kstrndup_ok mem = true →
  (commas (Klib.kstrndup buf DOG_ENTRY_NBYTES) < 2)%nat →
  dog_attr_store mem buf count st = Ret (- EINVAL) st.
Proof.
  intros Hok Hc. apply dog_attr_store_too_few_fields; [assumption|].
  rewrite strsep_tokens_commas. lia.
Qed.

Lemma store_fewer_than_two_commas_witness :
  dog_attr_store alloc_ok "Golden,3" 8 init_state = Ret (- EINVAL) init_state.
Proof.
  apply store_fewer_than_two_commas; [reflexivity|]. vm_compute. lia.
Defined.

(** X3.  When the allocation of the copy succeeds and the first 64 bytes
    of the written text hold more than two commas, the store writes a
    token past the end of [dog_attr]: the loop over the tokens has no
    bound, and the test of [idx] comes after it. *)
Theorem store_more_than_two_commas (mem : alloc) (buf : string) (count : Z)
        (st : state) :
  kstrndup_ok mem = true →
  (2 < commas (Klib.kstrndup buf DOG_ENTRY_NBYTES))%nat →
  dog_attr_store mem buf count st = OutOfBounds.
Proof.
  intros Hok Hc. apply dog_attr_store_too_many_fields; [assumption|].
  rewrite strsep_tokens_commas. lia.
Qed.

Lemma store_more_than_two_commas_witness :
  dog_attr_store alloc_ok "a,b,c,d,e" 9 init_state = OutOfBounds.
Proof.
  apply store_more_than_two_commas; [reflexivity|]. vm_compute. lia.
Defined.

(** ** A written text that ends in a newline *)

Lemma plain_field_app s1 s2 :
  plain_field (s1 ++ s2) = plain_field s1 && plain_field s2.
Proof.
  unfold plain_field. induction s1 as [|c s1 IH]; [reflexivity|].
  simpl. rewrite IH. rewrite andb_assoc. reflexivity.
Qed.

Lemma parse_integer_binary_then_newline f : ∀ acc rv,
  binary_digits f = true →
  Klib._parse_integer (f ++ String NEWLINE EmptyString) 2 acc rv
  = (fold_left (fun acc c => 2 * acc + (if Ascii.eqb c "1" then 1 else 0))
               (list_ascii_of_string f) acc,
     (rv + String.length f)%nat, String NEWLINE EmptyString).
Proof.
  induction f as [|c f IH]; intros acc rv Hb.
  - simpl String.length. rewrite Nat.add_0_r. reflexivity.
  - apply binary_digits_cons in Hb as [Hc Hb].
    destruct Hc; subst.
    + change (Klib._parse_integer (String "0" f ++ String NEWLINE "") 2 acc rv)
        with (Klib._parse_integer (f ++ String NEWLINE "") 2 (acc * 2 + 0)
                                  (S rv)).
      rewrite IH by assumption. simpl. f_equal.
      f_equal; [f_equal; lia | lia].
    + change (Klib._parse_integer (String "1" f ++ String NEWLINE "") 2 acc rv)
        with (Klib._parse_integer (f ++ String NEWLINE "") 2 (acc * 2 + 1)
                                  (S rv)).
      rewrite IH by assumption. simpl. f_equal.
      f_equal; [f_equal; lia | lia].
Qed.

Lemma kstrtoint_binary_then_newline f :
  f ≠ EmptyString → binary_digits f = true → bin_value f ≤ INT_MAX →
  Klib.kstrtoint (f ++ String NEWLINE EmptyString) 2 = Klib.KOk (bin_value f).
Proof.
  intros Hne Hb Hmax. pose proof (bin_value_nonneg f) as Hpos.
  assert (Hu : Klib._kstrtoull (f ++ String NEWLINE EmptyString) 2
               = Klib.KOk (bin_value f)).
  { unfold Klib._kstrtoull. rewrite fixup_radix_base_2.
    rewrite parse_integer_binary_then_newline by assumption.
    fold (bin_value f).
    destruct (ULLONG_MAX <? bin_value f) eqn:E.
    { apply Z.ltb_lt in E. unfold ULLONG_MAX, INT_MAX in *. lia. }
    destruct f; [congruence|]. reflexivity. }
  destruct f as [|c f]; [congruence|].
  apply binary_digits_cons in Hb as [Hc _].
  change (String c f ++ String NEWLINE "")%string
    with (String c (f ++ String NEWLINE "")) in *.
  unfold Klib.kstrtoint, Klib.kstrtoll, Klib.kstrtoull.
  assert (Hsign : Ascii.eqb c "-" = false ∧ Ascii.eqb c "+" = false)
    by (destruct Hc; subst; split; reflexivity).
  destruct Hsign as [-> ->]. rewrite Hu.
  destruct (LLONG_MAX <? _) eqn:E1.
  { apply Z.ltb_lt in E1. unfold LLONG_MAX, INT_MAX in *. lia. }
  destruct (_ && _) eqn:E2; [reflexivity|].
  apply andb_false_iff in E2 as [E2|E2]; apply Z.leb_gt in E2;
    unfold INT_MIN, INT_MAX in *; lia.
Qed.

(** X4.  A written text that ends in a newline after its third field, as
    [echo] sends it, is stored as the same entry as the text without the
    newline: [kstrtoint] lets one newline follow the digits of the flag. *)
Theorem store_accepts_trailing_newline (mem : alloc) (b a f : string)
        (count age_v : Z) (st : state) :
  kstrndup_ok mem = true → kmalloc_ok mem = true →
  plain_field b = true → plain_field a = true →
  (String.length
     (b ++ String COMMA (a ++ String COMMA (f ++ String NEWLINE EmptyString)))
   ≤ DOG_ENTRY_NBYTES)%nat →
  Klib.kstrtoint a 10 = Klib.KOk age_v →
  f ≠ EmptyString → binary_digits f = true → bin_value f ≤ INT_MAX →
  dog_attr_store mem
    (b ++ String COMMA (a ++ String COMMA (f ++ String NEWLINE EmptyString)))
    count st
  = Ret (to_ssize count)
        (list_add_tail {| breed := b; age := age_v;
                          training_easy := negb (bin_value f =? 0) |} st).
Proof.
  intros Hk Hm Hb Ha Hlen Hage Hne Hbin Hmax.
  unfold dog_attr_store, parse_dog. rewrite Hk, Hm. simpl negb. cbv iota.
  rewrite tokens_of_three_fields; auto.
  - rewrite fill_dog_attr_three by reflexivity.
    simpl Nat.ltb. cbv iota. simpl nth.
    rewrite Hage, kstrtoint_binary_then_newline by assumption. reflexivity.
  - rewrite plain_field_app, binary_digits_plain by assumption. reflexivity.
Qed.

Lemma store_accepts_trailing_newline_witness :
  dog_attr_store alloc_ok
    ("Golden" ++ String COMMA ("3" ++ String COMMA ("0" ++ String NEWLINE "")))
    11 init_state
  = Ret 11 (list_add_tail {| breed := "Golden"; age := 3;
                             training_easy := false |} init_state).
Proof.
  apply (store_accepts_trailing_newline alloc_ok "Golden" "3" "0" 11 3
           init_state); try reflexivity.
  - vm_compute. lia.
  - discriminate.
  - vm_compute. discriminate.
Defined.

(** ** Writing an entry back *)

Lemma parse_integer_digit c k s acc rv :
  Klib.digit_val c = Some k → k < 10 →
  Klib._parse_integer (String c s) 10 acc rv
  = Klib._parse_integer s 10 (acc * 10 + k) (S rv).
Proof.
  intros Hd Hk. cbn [Klib._parse_integer]. rewrite Hd.
  apply Z.ltb_lt in Hk. rewrite Hk. reflexivity.
Qed.

Lemma parse_integer_uint d : ∀ acc rv,
  Klib._parse_integer (NilEmpty.string_of_uint d) 10 acc rv
  = (uint_value d acc, (rv + Decimal.nb_digits d)%nat, EmptyString).
Proof.
  induction d; intros acc rv;
    cbn [NilEmpty.string_of_uint uint_value Decimal.nb_digits].
  1: { rewrite Nat.add_0_r. reflexivity. }
  all: match goal with
       | |- context [uint_value _ (_ * 10 + ?k)] =>
           rewrite (parse_integer_digit _ k) by first [reflexivity | lia]
       end;
    rewrite IHd; f_equal; f_equal; lia.
Qed.

Lemma uint_value_of_uint_acc d : ∀ acc,
  Z.pos (Pos.of_uint_acc d acc) = uint_value d (Z.pos acc).
Proof.
  induction d; intros acc; cbn [Pos.of_uint_acc uint_value];
    [reflexivity | ..]; rewrite IHd; f_equal; lia.
Qed.

Lemma uint_value_of_uint d : Z.of_N (Pos.of_uint d) = uint_value d 0.
Proof.
  induction d; cbn [Pos.of_uint uint_value]; try reflexivity;
    [exact IHd | ..]; cbn [Z.of_N]; rewrite uint_value_of_uint_acc;
    reflexivity.
Qed.

Lemma uint_value_to_uint p : uint_value (Pos.to_uint p) 0 = Z.pos p.
Proof.
  rewrite <- uint_value_of_uint, DecimalPos.Unsigned.of_to. reflexivity.
Qed.

Lemma string_of_uint_head d :
  d ≠ Decimal.Nil →
  ∃ c s, NilEmpty.string_of_uint d = String c s
         ∧ Ascii.eqb c "-" = false ∧ Ascii.eqb c "+" = false
         ∧ Ascii.eqb c COMMA = false ∧ Ascii.eqb c NUL = false.
Proof.
  destruct d; [congruence|..]; intros _; simpl; eexists _, _;
    (split; [reflexivity|]); repeat split; reflexivity.
Qed.

Lemma fixup_radix_base_10 s : Klib._parse_integer_fixup_radix s 10 = s.
Proof. destruct s as [|c0 [|c1 s]]; reflexivity. Qed.

Lemma kstrtoull_uint d :
  d ≠ Decimal.Nil → uint_value d 0 ≤ ULLONG_MAX →
  Klib._kstrtoull (NilEmpty.string_of_uint d) 10 = Klib.KOk (uint_value d 0).
Proof.
  intros Hd Hmax. unfold Klib._kstrtoull.
  rewrite fixup_radix_base_10, parse_integer_uint.
  destruct (ULLONG_MAX <? _) eqn:E; [apply Z.ltb_lt in E; lia|].
  destruct d; [congruence|..]; reflexivity.
Qed.

(** The decimal text of an [int] is read back by [kstrtoint] as the same
    number. *)
Lemma kstrtoint_fmt_d z :
  INT_MIN ≤ z ≤ INT_MAX → Klib.kstrtoint (Klib.fmt_d z) 10 = Klib.KOk z.
Proof.
  intros Hz. unfold Klib.fmt_d.
  destruct z as [|p|p]; [reflexivity|..]; cbn [Z.to_int NilZero.string_of_int].
  - pose proof (DecimalPos.Unsigned.to_uint_nonnil p) as Hnn.
    replace (NilZero.string_of_uint (Pos.to_uint p))
      with (NilEmpty.string_of_uint (Pos.to_uint p))
      by (destruct (Pos.to_uint p); [congruence|..]; reflexivity).
    pose proof (kstrtoull_uint (Pos.to_uint p) Hnn) as Hu.
    rewrite uint_value_to_uint in Hu.
    destruct (string_of_uint_head _ Hnn) as (c & s & Hs & Hm & Hp & _).
    unfold Klib.kstrtoint, Klib.kstrtoll, Klib.kstrtoull.
    rewrite Hs, Hm, Hp, <- Hs, Hu by (unfold ULLONG_MAX, INT_MAX in *; lia).
    destruct (LLONG_MAX <? _) eqn:E1.
    { apply Z.ltb_lt in E1. unfold LLONG_MAX, INT_MAX in *. lia. }
    destruct (_ && _) eqn:E2; [reflexivity|].
    apply andb_false_iff in E2 as [E2|E2]; apply Z.leb_gt in E2; lia.
  - pose proof (DecimalPos.Unsigned.to_uint_nonnil p) as Hnn.
    replace (NilZero.string_of_uint (Pos.to_uint p))
      with (NilEmpty.string_of_uint (Pos.to_uint p))
      by (destruct (Pos.to_uint p); [congruence|..]; reflexivity).
    pose proof (kstrtoull_uint (Pos.to_uint p) Hnn) as Hu.
    rewrite uint_value_to_uint in Hu.
    unfold Klib.kstrtoint, Klib.kstrtoll.
    change (Ascii.eqb "-" "-") with true. cbv iota.
    rewrite Hu by (unfold ULLONG_MAX, INT_MIN in *; lia).
    destruct (LLONG_MAX + 1 <? _) eqn:E1.
    { apply Z.ltb_lt in E1. unfold LLONG_MAX, INT_MIN in *. lia. }
    change (- Z.pos p) with (Z.neg p).
    destruct (_ && _) eqn:E2; [reflexivity|].
    apply andb_false_iff in E2 as [E2|E2]; apply Z.leb_gt in E2; lia.
Qed.

Lemma plain_field_uint d : plain_field (NilEmpty.string_of_uint d) = true.
Proof. induction d; [reflexivity|..]; apply plain_field_cons; auto. Qed.

Lemma plain_field_fmt_d z : plain_field (Klib.fmt_d z) = true.
Proof.
  unfold Klib.fmt_d.
  assert (H : ∀ d, plain_field (NilZero.string_of_uint d) = true).
  { intros d. destruct d; try reflexivity; apply (plain_field_uint (_ d)). }
  destruct z; cbn [Z.to_int NilZero.string_of_int]; [reflexivity|apply H|].
  apply plain_field_cons. auto.
Qed.

(** X5.  Writing an entry back.  For an entry whose breed holds no comma
    and no NUL and whose age fits an [int], the text "breed,age,flag" with
    the age in decimal and the flag as 1 or 0, when it has at most 64
    bytes, is stored as an entry equal to the first one. *)
Theorem store_of_dog_text (mem : alloc) (entry : dog) (count : Z)
        (st : state) :
  kstrndup_ok mem = true → kmalloc_ok mem = true →
  plain_field (breed entry) = true →
  INT_MIN ≤ age entry ≤ INT_MAX →
  (String.length (dog_text entry) ≤ DOG_ENTRY_NBYTES)%nat →
  dog_attr_store mem (dog_text entry) count st
  = Ret (to_ssize count) (list_add_tail entry st).
Proof.
  intros Hk Hm Hb Hage Hlen. destruct entry as [b z te]. simpl in *.
  unfold dog_attr_store, parse_dog, dog_text in *. simpl in *.
  rewrite Hk, Hm. simpl negb. cbv iota.
  rewrite tokens_of_three_fields; auto using plain_field_fmt_d;
    [|destruct te; reflexivity].
  rewrite fill_dog_attr_three by reflexivity.
  simpl Nat.ltb. cbv iota. simpl nth.
  rewrite kstrtoint_fmt_d by assumption. destruct te; reflexivity.
Qed.

Lemma store_of_dog_text_witness :
  dog_attr_store alloc_ok "Saint Bernard,-17,1" 19 init_state
  = Ret 19 (list_add_tail {| breed := "Saint Bernard"; age := -17;
                             training_easy := true |} init_state).
Proof.
  apply (store_of_dog_text alloc_ok
           {| breed := "Saint Bernard"; age := -17; training_easy := true |}
           19 init_state); try reflexivity.
  - vm_compute. split; discriminate.
  - vm_compute. lia.
Defined.

(** ** A NUL byte in the written text *)

Lemma kstrndup_stops_at_nul s1 s2 : ∀ n,
  nul_free s1 = true →
  Klib.kstrndup (s1 ++ String NUL s2) n = Klib.kstrndup s1 n.
Proof.
  induction s1 as [|c s1 IH]; intros n Hf.
  - destruct n; reflexivity.
  - unfold nul_free in Hf. simpl in Hf.
    apply andb_true_iff in Hf as [Hc Hf]. apply negb_true_iff in Hc.
    destruct n as [|n]; [reflexivity|]. simpl. rewrite Hc.
    rewrite IH by exact Hf. reflexivity.
Qed.

(** X19.  The store reads the written text as a C string: what follows
    the first NUL byte is ignored, and the store behaves as on the text
    before it. *)
Theorem store_stops_at_nul (mem : alloc) (s1 s2 : string) (count : Z)
        (st : state) :
  nul_free s1 = true →
  dog_attr_store mem (s1 ++ String NUL s2) count st
  = dog_attr_store mem s1 count st.
Proof.
  intros Hf. unfold dog_attr_store, parse_dog.
  rewrite kstrndup_stops_at_nul by assumption. reflexivity.
Qed.

Lemma store_stops_at_nul_witness :
  dog_attr_store alloc_ok ("Pug,4,1" ++ String NUL ",1,junk") 15 init_state
  = Ret 15 (list_add_tail {| breed := "Pug"; age := 4; training_easy := true |}
                          init_state).
Proof.
  rewrite (store_stops_at_nul alloc_ok "Pug,4,1" ",1,junk" 15 init_state)
    by reflexivity.
  reflexivity.
Defined.

(** ** What a read returns *)

Lemma show_loop_returns l : ∀ (buf : list ascii) (n : nat),
  (n + length (dump l) + DOG_ENTRY_NBYTES ≤ length buf)%nat →
  Z.of_nat (length buf) < SIZE_MODULUS →
  ∃ buf', show_loop l buf (Z.of_nat n)
          = Some (buf', Z.of_nat (n + length (dump l)))
          ∧ length buf' = length buf
          ∧ take n buf' = take n buf.
Proof.
  induction l as [|entry l IH]; intros buf n Hlen Hmod.
  - exists buf. simpl. rewrite Nat.add_0_r. auto.
  - simpl dump in *. rewrite length_app, length_chars in *.
    set (chars := list_ascii_of_string (dog_line entry)) in *.
    unfold DOG_ENTRY_NBYTES in *.
    assert (Hchars : length chars = String.length (dog_line entry))
      by apply length_chars.
    destruct (write_at_fits buf n (take 63 chars ++ [NUL]))
      as (buf1 & Hw & Hl1 & Ht1 & _).
    { rewrite length_app, length_take. cbn [length]. lia. }
    destruct (IH buf1 (n + String.length (dog_line entry))%nat)
      as (buf' & Hloop & Hl' & Ht'); [lia | lia |].
    exists buf'. split; [|split].
    + simpl show_loop. unfold Klib.snprintf, DOG_ENTRY_NBYTES.
      rewrite Nat2Z.id. fold chars. rewrite Hw.
      replace (wrap_size (Z.of_nat n + Z.of_nat (String.length (dog_line entry))))
        with (Z.of_nat (n + String.length (dog_line entry))).
      * rewrite Hloop. do 2 f_equal. lia.
      * unfold wrap_size. rewrite Z.mod_small; lia.
    + lia.
    + rewrite <- Ht1.
      apply (f_equal (take n)) in Ht'. rewrite !take_take in Ht'.
      rewrite !Nat.min_l in Ht' by lia. exact Ht'.
Qed.

(** X6.  Whatever the lengths of the lines, when the buffer has room for
    the full length of every line and 64 bytes more, the read stays inside
    the buffer, leaves its length and the globals as they are, and returns
    the sum of the full lengths of the lines, also of those it stored cut
    at 63 bytes. *)
Theorem show_returns_sum_of_line_lengths (buf : list ascii) (st : state) :
  (length (dump (dog_list st)) + DOG_ENTRY_NBYTES ≤ length buf)%nat →
  Z.of_nat (length buf) < 2 ^ 63 →
  ∃ buf', dog_attr_show buf st
          = Ret (buf', Z.of_nat (length (dump (dog_list st)))) st
          ∧ length buf' = length buf.
Proof.
  intros Hlen Hmod.
  destruct (show_loop_returns (dog_list st) buf 0) as (buf' & Hl & Hlb & _).
  - lia.
  - unfold SIZE_MODULUS. lia.
  - exists buf'. unfold dog_attr_show. change (Z.of_nat 0) with 0 in Hl.
    rewrite Hl. simpl in *. split; [|assumption].
    do 2 f_equal. unfold to_ssize, wrap_size, SIZE_MODULUS.
    unfold DOG_ENTRY_NBYTES in *. rewrite Z.mod_small by lia.
    destruct (_ <? _) eqn:E; [reflexivity|]. apply Z.ltb_ge in E. lia.
Qed.

Lemma show_returns_sum_of_line_lengths_witness :
  ∃ buf',
    dog_attr_show (replicate 200 "x"%char)
      (list_add_tail {| breed := repeat_char 58 "B"; age := 1;
                        training_easy := false |}
         (list_add_tail {| breed := "Pug"; age := 4; training_easy := true |}
            init_state))
    = Ret (buf', 78)
        (list_add_tail {| breed := repeat_char 58 "B"; age := 1;
                          training_easy := false |}
           (list_add_tail {| breed := "Pug"; age := 4; training_easy := true |}
              init_state))
    ∧ length buf' = 200%nat.
Proof.
  apply (show_returns_sum_of_line_lengths (replicate 200 "x"%char)).
  - vm_compute. lia.
  - vm_compute. reflexivity.
Defined.

(** X7.  Reading after any accepted write.  When a write is accepted, the
    lines of the old entries and of the new one all fit, and the buffer
    holds the dump and one byte more, the read that follows returns the
    length of the old dump plus the length of the new line, and the buffer
    starts with the old dump followed by the line of the new entry. *)
Theorem read_after_accepted_write (mem : alloc) (buf : string) (count : Z)
        (st : state) (entry : dog) (out : list ascii) :
  parse_dog mem buf = Parsed entry →
  Forall line_fits (dog_list st) → line_fits entry →
  (length (dump (dog_list st)) + String.length (dog_line entry) + 1
   ≤ length out)%nat →
  Z.of_nat (length out) < 2 ^ 63 →
  ∃ st1 out1,
    dog_attr_store mem buf count st = Ret (to_ssize count) st1
    ∧ dog_attr_show out st1
      = Ret (out1, Z.of_nat (length (dump (dog_list st))
                             + String.length (dog_line entry))) st1
    ∧ take (length (dump (dog_list st)) + String.length (dog_line entry)) out1
      = dump (dog_list st) ++ list_ascii_of_string (dog_line entry).
Proof.
  intros Hp Hfit Hline Hlen Hmod.
  assert (Hd : dump (dog_list st ++ [entry])
               = dump (dog_list st) ++ list_ascii_of_string (dog_line entry)).
  { rewrite dump_app. simpl. rewrite app_nil_r. reflexivity. }
  destruct (dog_attr_show_lines_fit out (list_add_tail entry st))
    as (out1 & Hs & _ & Ht); simpl dog_list.
  - apply Forall_app. split; [assumption|]. constructor; [assumption|constructor].
  - rewrite Hd, length_app, length_chars. lia.
  - exact Hmod.
  - exists (list_add_tail entry st), out1.
    unfold dog_attr_store. rewrite Hp. split; [reflexivity|].
    simpl dog_list in Hs, Ht. rewrite Hd, length_app, length_chars in Hs, Ht.
    split; assumption.
Qed.

Lemma read_after_accepted_write_witness :
  ∃ st1 out1,
    dog_attr_store alloc_ok "Pug,4,10" 8 init_state = Ret 8 st1
    ∧ dog_attr_show (replicate 32 NUL) st1 = Ret (out1, 11) st1
    ∧ take 11 out1 = with_newline "Pug 4 true".
Proof.
  destruct (read_after_accepted_write alloc_ok "Pug,4,10" 8 init_state
              {| breed := "Pug"; age := 4; training_easy := true |}
              (replicate 32 NUL))
    as (st1 & out1 & H1 & H2 & H3).
  - reflexivity.
  - constructor.
  - unfold line_fits. vm_compute. lia.
  - vm_compute. lia.
  - vm_compute. reflexivity.
  - exists st1, out1. auto.
Defined.

(** ** Longer runs *)

Section MoreRuns.

Variable msecs_to_jiffies : Z -> Z.

Local Abbreviation tick_ := (timer_remove_dog msecs_to_jiffies).
Local Abbreviation step_ := (step msecs_to_jiffies).
Local Abbreviation run_ := (run msecs_to_jiffies).

Lemma run_cons o ops st :
  run_ (o :: ops) st
  = match step_ o st with
    | Some (st', evs) =>
        match run_ ops st' with
        | Some (st'', evs') => Some (st'', evs ++ evs')
        | None => None
        end
    | None => None
    end.
Proof. reflexivity. Qed.

(** X8.  [n] ticks in a row remove the first [n] entries of the list, or
    all of them when it is shorter, hand them to [kfree_rcu] in that order
    and leave the counter as it was. *)
Theorem ticks_drain_from_the_head (js : list Z) (st : state) :
  ∃ st' evs,
    run_ (Tick <$> js) st = Some (st', evs)
    ∧ dog_list st' = drop (length js) (dog_list st)
    ∧ removed evs = take (length js) (dog_list st)
    ∧ rcu_callbacks st'
      = rcu_callbacks st ++ take (length js) (dog_list st)
    ∧ dog_list_size st' = dog_list_size st.
Proof.
  revert st. induction js as [|j js IH]; intros st.
  - exists st, []. simpl. rewrite drop_0, take_0, app_nil_r. auto.
  - destruct (IH (tick_ j st)) as (st' & evs & Hrun & Hl & Hr & Hc & Hs).
    rewrite fmap_cons, run_cons. simpl step. cbv beta iota. rewrite Hrun.
    eexists _, _. split; [reflexivity|].
    rewrite removed_app, Hl, Hr, Hc, Hs.
    unfold timer_remove_dog, remove_first.
    destruct (dog_list st) as [|entry rest] eqn:E; simpl;
      rewrite ?E, ?drop_nil, ?take_nil, ?app_nil_r, <- ?app_assoc; auto.
Qed.

Lemma step_size_range o st st' evs :
  step_ o st = Some (st', evs) →
  0 ≤ dog_list_size st < SIZE_MODULUS →
  0 ≤ dog_list_size st' < SIZE_MODULUS.
Proof.
  destruct o as [mem buf count|jiffies|]; simpl.
  - unfold dog_attr_store. destruct (parse_dog mem buf);
      intros [= <- <-] Hr; simpl; auto.
    unfold wrap_size. apply Z.mod_pos_bound. reflexivity.
  - intros [= <- <-] Hr. unfold timer_remove_dog, remove_first.
    destruct (dog_list st); simpl; auto.
  - intros [= <- <-] Hr. simpl. auto.
Qed.

Lemma run_size_range ops : ∀ st st' evs,
  run_ ops st = Some (st', evs) →
  0 ≤ dog_list_size st < SIZE_MODULUS →
  0 ≤ dog_list_size st' < SIZE_MODULUS.
Proof.
  induction ops as [|o ops IH]; intros st st' evs.
  - simpl. intros [= <- <-]. auto.
  - rewrite run_cons.
    destruct (step_ o st) as [[st1 evs1]|] eqn:E1; [|discriminate].
    destruct (run_ ops st1) as [[st2 evs2]|] eqn:E2; [|discriminate].
    intros [= <- <-] Hr. eapply IH; [eassumption|].
    eapply step_size_range; eassumption.
Qed.

(** X9.  After any run from the freshly loaded module, [dog_list_size] is
    the number of entries in the list plus the number of entries removed
    so far (as a [size_t]): it counts the appends and never comes down. *)
Theorem size_counter_counts_removed_entries_too (ops : list op)
        (st : state) (evs : list event) :
  run_ ops init_state = Some (st, evs) →
  dog_list_size st = wrap_size (Z.of_nat (length (appended evs)))
  ∧ length (appended evs)
    = (length (dog_list st) + length (removed evs))%nat.
Proof.
  intros Hrun. split.
  - pose proof (run_size_counts_appends _ _ _ _ _ Hrun) as Hs.
    pose proof (run_size_range _ _ _ _ Hrun) as Hr. simpl in Hs, Hr.
    unfold wrap_size in *. rewrite Z.mod_small in Hs; [exact Hs|].
    apply Hr. unfold SIZE_MODULUS. lia.
  - pose proof (run_length _ _ _ _ _ Hrun) as Hl. simpl in Hl. lia.
Qed.

Lemma sublist_delete_l (i : nat) (l : list dog) : delete i l `sublist_of` l.
Proof.
  rewrite delete_take_drop. rewrite <- (take_drop i l) at 3.
  apply sublist_app; [reflexivity|].
  replace (S i) with (i + 1)%nat by lia.
  rewrite <- drop_drop. apply sublist_drop.
Qed.

Lemma length_delete_ge (i : nat) (l : list dog) :
  (length l ≤ S (length (delete i l)))%nat.
Proof.
  rewrite delete_take_drop, length_app, length_take, length_drop. lia.
Qed.

(** X10.  In any run, whatever entries the RCU core frees and in whatever
    order, the queue of [kfree_rcu] at the end is what is left of the
    entries that waited at the start followed by the entries removed from
    the list, in the order of their removal, after at most one of them
    has been taken out for each reclamation: every removed entry is handed
    to [kfree_rcu], nothing else is, and an entry leaves the queue only by
    reclamation.  In a run without reclamation the queue is exactly the
    old queue followed by the removed entries. *)
Theorem removed_entries_are_queued_in_order (ops : list op)
        (st st' : state) (evs : list event) :
  run_ ops st = Some (st', evs) →
  rcu_callbacks st' `sublist_of` (rcu_callbacks st ++ removed evs)
  ∧ (length (rcu_callbacks st ++ removed evs)
     ≤ length (rcu_callbacks st') + reclaims ops)%nat
  ∧ (reclaims ops = 0%nat →
     rcu_callbacks st' = rcu_callbacks st ++ removed evs).
Proof.
  intros Hrun.
  assert (H : rcu_callbacks st' `sublist_of` (rcu_callbacks st ++ removed evs)
              ∧ (length (rcu_callbacks st ++ removed evs)
                 ≤ length (rcu_callbacks st') + reclaims ops)%nat).
  { revert st st' evs Hrun.
    induction ops as [|o ops IH]; intros st st' evs.
    - simpl. intros [= <- <-]. simpl. rewrite app_nil_r.
      split; [reflexivity | lia].
    - rewrite run_cons.
      destruct (step_ o st) as [[st1 evs1]|] eqn:E1; [|discriminate].
      destruct (run_ ops st1) as [[st2 evs2]|] eqn:E2; [|discriminate].
      intros [= <- <-]. destruct (IH _ _ _ E2) as (Hsub & Hlen).
      rewrite removed_app. clear IH E2.
      destruct o as [mem buf count|jiffies|i]; simpl in E1.
      + change (reclaims (Write mem buf count :: ops)) with (reclaims ops).
        unfold dog_attr_store in E1.
        destruct (parse_dog mem buf); simplify_eq; simpl in *; auto.
      + change (reclaims (Tick jiffies :: ops)) with (reclaims ops).
        injection E1 as <- <-. revert Hsub Hlen.
        unfold timer_remove_dog, remove_first.
        destruct (dog_list st); simpl; rewrite ?app_nil_r, <- ?app_assoc;
          auto.
      + change (reclaims (Reclaim i :: ops)) with (S (reclaims ops)).
        injection E1 as <- <-. simpl in *. split.
        * etransitivity; [exact Hsub|].
          apply sublist_app; [apply sublist_delete_l | reflexivity].
        * pose proof (length_delete_ge i (rcu_callbacks st)) as Hd.
          rewrite !length_app in *. lia. }
  destruct H as [Hsub Hlen]. split; [assumption|]. split; [assumption|].
  intros Hz. rewrite Hz, Nat.add_0_r in Hlen. clear -Hsub Hlen.
  induction Hsub as [|x l1 l2 Hsub IH|x l1 l2 Hsub IH]; [reflexivity| |].
  - simpl in Hlen. f_equal. apply IH. lia.
  - apply sublist_length in Hsub. simpl in Hlen. lia.
Qed.

(** X11.  [rcu_linked_list_init] returns 0 exactly when the kobject was
    created and the attribute group added; the kobject is then held and the
    timer is pending at 5000 ms from now.  Otherwise it returns [-ENOMEM]
    or the error of [sysfs_create_group], which is not 0, the timer is not
    pending and no kobject is held.  The list, the counter and the queue
    are as before in every case. *)
Theorem init_unwinds_on_failure (kobj_ok : bool) (group_err jiffies : Z)
        (st : state) :
  let r := fst (rcu_linked_list_init msecs_to_jiffies kobj_ok group_err
                                     jiffies st) in
  let st' := snd (rcu_linked_list_init msecs_to_jiffies kobj_ok group_err
                                       jiffies st) in
  dog_list st' = dog_list st
  ∧ dog_list_size st' = dog_list_size st
  ∧ rcu_callbacks st' = rcu_callbacks st
  ∧ (r = 0 ↔ kobj_ok = true ∧ group_err = 0)
  ∧ (if r =? 0
     then removal_timer st'
          = Some (wrap_size (jiffies + msecs_to_jiffies 5000))
          ∧ dog_kobj st' = true
     else removal_timer st' = None ∧ dog_kobj st' = false
          ∧ (r = - ENOMEM ∨ r = group_err)).
Proof.
  unfold rcu_linked_list_init. destruct kobj_ok; simpl.
  - destruct (group_err =? 0) eqn:E; simpl.
    + apply Z.eqb_eq in E. repeat split; auto.
    + rewrite E. apply Z.eqb_neq in E. repeat split; auto; tauto.
  - repeat split; auto; try discriminate. intros [? _]. discriminate.
Qed.

(** X12.  Once the module is loaded, the timer is pending and the kobject
    held after every run of stores, ticks and reclamations: no callback
    stops the timer or drops the kobject. *)
Theorem timer_stays_pending (jiffies : Z) (ops : list op)
        (st0 st : state) (evs : list event) :
  run_ ops (snd (rcu_linked_list_init msecs_to_jiffies true 0 jiffies st0))
  = Some (st, evs) →
  is_Some (removal_timer st) ∧ dog_kobj st = true.
Proof.
  assert (H : ∀ ops st1 st2 evs,
             run_ ops st1 = Some (st2, evs) →
             is_Some (removal_timer st1) ∧ dog_kobj st1 = true →
             is_Some (removal_timer st2) ∧ dog_kobj st2 = true).
  { clear. induction ops as [|o ops IH]; intros st1 st2 evs.
    - simpl. intros [= <- <-]. auto.
    - rewrite run_cons.
      destruct (step_ o st1) as [[st' evs1]|] eqn:E1; [|discriminate].
      destruct (run_ ops st') as [[st'' evs2]|] eqn:E2; [|discriminate].
      intros [= <- <-] Hst. eapply IH; [eassumption|]. clear IH E2.
      destruct o as [mem buf count|j|]; simpl in E1.
      + unfold dog_attr_store in E1.
        destruct (parse_dog mem buf); simplify_eq; auto.
      + injection E1 as <- <-. unfold timer_remove_dog, remove_first.
        destruct (dog_list st1); simpl; split; eauto; tauto.
      + injection E1 as <- <-. simpl. auto. }
  intros Hrun. eapply H; [eassumption|]. simpl. eauto.
Qed.

End MoreRuns.

Lemma size_counter_counts_removed_entries_too_witness :
  ∃ st evs,
    run (fun ms => ms / 4)
        [Write alloc_ok "Golden,3,1" 10; Write alloc_ok "Pug,4,10" 8;
         Tick 1000] init_state = Some (st, evs)
    ∧ dog_list_size st = 2 ∧ length (dog_list st) = 1%nat
    ∧ length (removed evs) = 1%nat.
Proof.
  destruct (run (fun ms => ms / 4)
              [Write alloc_ok "Golden,3,1" 10; Write alloc_ok "Pug,4,10" 8;
               Tick 1000] init_state) as [[st evs]|] eqn:Hrun.
  - exists st, evs. split; [reflexivity|].
    destruct (size_counter_counts_removed_entries_too _ _ _ _ Hrun)
      as [Hs Hl].
    vm_compute in Hrun. injection Hrun as <- <-. repeat split.
  - vm_compute in Hrun. discriminate.
Defined.

Lemma removed_entries_are_queued_in_order_witness :
  ∃ st evs,
    run (fun ms => ms / 4)
        [Write alloc_ok "Golden,3,1" 10; Write alloc_ok "Pug,4,10" 8;
         Tick 1000; Tick 6000; Reclaim 1] init_state = Some (st, evs)
    ∧ rcu_callbacks st `sublist_of` (rcu_callbacks init_state ++ removed evs)
    ∧ (length (rcu_callbacks init_state ++ removed evs)
       ≤ length (rcu_callbacks st) + 1)%nat.
Proof.
  destruct (run (fun ms => ms / 4)
              [Write alloc_ok "Golden,3,1" 10; Write alloc_ok "Pug,4,10" 8;
               Tick 1000; Tick 6000; Reclaim 1] init_state)
    as [[st evs]|] eqn:Hrun.
  - destruct (removed_entries_are_queued_in_order _ _ _ _ _ Hrun)
      as (Hs & Hl & _).
    exists st, evs. split; [reflexivity|]. split; [exact Hs | exact Hl].
  - vm_compute in Hrun. discriminate.
Defined.

Lemma timer_stays_pending_witness :
  ∃ st evs,
    run (fun ms => ms / 4)
        [Write alloc_ok "Golden,3,1" 10; Tick 1250; Reclaim 0]
        (snd (rcu_linked_list_init (fun ms => ms / 4) true 0 0 init_state))
    = Some (st, evs)
    ∧ is_Some (removal_timer st) ∧ dog_kobj st = true.
Proof.
  destruct (run (fun ms => ms / 4)
              [Write alloc_ok "Golden,3,1" 10; Tick 1250; Reclaim 0]
              (snd (rcu_linked_list_init (fun ms => ms / 4) true 0 0
                                         init_state)))
    as [[st evs]|] eqn:Hrun.
  - exists st, evs. split; [reflexivity|].
    exact (timer_stays_pending _ _ _ _ _ _ Hrun).
  - vm_compute in Hrun. discriminate.
Defined.

(* ===================================================================== *)
(** * Further properties of the pointer level model                       *)
(* ===================================================================== *)

Module RcuMore.
Import Rcu RcuFacts.

(** ** The linked entries of a reachable state *)

Lemma walk_chain h l : ∀ p fuel,
  chain h p l → (length l ≤ fuel)%nat → walk fuel h p = l.
Proof.
  induction l as [|a l IH]; intros p fuel Hc Hf.
  - simpl in Hc. subst p. destruct fuel; reflexivity.
  - simpl in Hc. destruct Hc as (-> & n & Hn & Hc). simpl in Hf.
    destruct fuel as [|fuel]; [lia|]. simpl. rewrite Hn.
    f_equal. apply IH; [assumption | lia].
Qed.

Lemma chain_length h p l :
  chain h p l → NoDup l → (length l ≤ size h)%nat.
Proof.
  intros Hc Hnd. rewrite <- (size_list_to_set (C := gset nat) l Hnd).
  rewrite <- (size_dom h). apply subseteq_size.
  intros a Ha%elem_of_list_to_set. apply elem_of_dom.
  eapply chain_alloc; eassumption.
Qed.

Lemma inv_linked_eq st l : inv st l → linked st = l.
Proof.
  intros Hinv. unfold linked. apply walk_chain.
  - apply (inv_chain _ _ Hinv).
  - eapply chain_length; [apply (inv_chain _ _ Hinv) | apply (inv_nodup _ _ Hinv)].
Qed.

Lemma reachable_inv acts st :
  run acts init = Some st → inv st (linked st).
Proof.
  intros Hrun. destruct (inv_run _ _ _ _ inv_init Hrun) as [l Hinv].
  by rewrite (inv_linked_eq _ _ Hinv).
Qed.

(** X13.  In every reachable state, the locked section of
    [dog_attr_store] on a fresh object does not fault (no store through a
    poisoned or dangling pointer): the dogs along the list are the old
    ones followed by the new one, and the counter is one more. *)
Theorem store_links_at_tail (acts : list action) (st : cstate) (a : addr)
        (d : dog) :
  run acts init = Some st → heap st !! a = None →
  ∃ st', do_action (Store a d) st = Some st'
         ∧ linked st' = linked st ++ [a]
         ∧ linked_dogs st' = linked_dogs st ++ [d]
         ∧ list_size st' = wrap_size (list_size st + 1).
Proof.
  intros Hrun Ha. pose proof (reachable_inv _ _ Hrun) as Hinv.
  destruct (store_step _ _ a d Hinv Ha) as (st' & Hdo & Hinv' & Hpa & Hp & Hs).
  exists st'. split; [assumption|].
  pose proof (inv_linked_eq _ _ Hinv') as Hl. split; [assumption|].
  split; [|assumption]. unfold linked_dogs. rewrite Hl.
  unfold dogs_of at 1. rewrite omap_app. simpl. rewrite Hpa. simpl.
  f_equal. apply dogs_of_ext. intros x Hx. apply Hp. intros ->.
  destruct (chain_alloc _ _ _ _ (inv_chain _ _ Hinv) Hx) as [n Hn]. congruence.
Qed.

(** X14.  In every reachable state the timer callback does not fault.  It
    unlinks the first entry, if there is one, and queues it for the
    read-side sections in progress at that moment; the other entries stay
    linked in their order with their dogs, and the counter is not
    changed. *)
Theorem timer_unlinks_first (acts : list action) (st : cstate) :
  run acts init = Some st →
  ∃ st', do_action Timer st = Some st'
         ∧ linked st' = tail (linked st)
         ∧ linked_dogs st' = tail (linked_dogs st)
         ∧ list_size st' = list_size st
         ∧ (∀ a, head (linked st) = Some a →
                 callbacks st' !! a = Some (dom (readers st))).
Proof.
  intros Hrun. pose proof (reachable_inv _ _ Hrun) as Hinv.
  destruct (linked st) as [|a l] eqn:El.
  - exists st. rewrite (timer_step_empty st Hinv). unfold linked_dogs.
    rewrite El. repeat split; auto. discriminate.
  - destruct (timer_step st a l Hinv) as (st' & Hdo & Hinv' & Hcb & Hp & Hs).
    exists st'. split; [assumption|].
    pose proof (inv_linked_eq _ _ Hinv') as Hl. split; [assumption|].
    split; [|split; [assumption|]].
    + unfold linked_dogs. rewrite Hl, El.
      destruct (chain_alloc _ _ _ a (inv_chain _ _ Hinv)) as [n Hn]; [left|].
      unfold dogs_of at 2. simpl. rewrite Hn. simpl.
      apply dogs_of_ext. auto.
    + simpl. intros ? [= <-]. assumption.
Qed.

(** X15.  In every reachable state with no reader in progress, every
    queued entry can be freed at once: a grace period only ever waits for
    readers. *)
Theorem free_possible_without_readers (acts : list action) (st : cstate)
        (a : addr) (w : gset tid) :
  run acts init = Some st → readers st = ∅ →
  callbacks st !! a = Some w →
  ∃ st', do_action (Free a) st = Some st' ∧ a ∈ freed st'
         ∧ callbacks st' !! a = None.
Proof.
  intros Hrun Hr Hw. pose proof (reachable_inv _ _ Hrun) as Hinv.
  assert (Hempty : w = ∅).
  { apply set_eq. intros t. split; [|intros Ht; by apply not_elem_of_empty in Ht].
    intros Ht. destruct (inv_awaited _ _ Hinv _ _ _ Hw Ht) as [r Hrt].
    rewrite Hr in Hrt. by rewrite lookup_empty in Hrt. }
  subst w. simpl. rewrite Hw. simpl. rewrite decide_True by reflexivity.
  eexists. split; [reflexivity|]. simpl. split.
  - apply elem_of_union. left. by apply elem_of_singleton.
  - apply lookup_delete_eq.
Qed.

(** X16.  In every reachable state, a freed entry is neither linked nor
    queued, and it cannot be freed again. *)
Theorem freed_entries_are_gone (acts : list action) (st : cstate)
        (a : addr) :
  run acts init = Some st → a ∈ freed st →
  (a ∉ linked st) ∧ callbacks st !! a = None
  ∧ do_action (Free a) st = None.
Proof.
  intros Hrun Ha. pose proof (reachable_inv _ _ Hrun) as Hinv.
  assert (Hcb : callbacks st !! a = None).
  { destruct (callbacks st !! a) as [w|] eqn:E; [|reflexivity].
    by destruct (inv_queued _ _ Hinv _ _ E). }
  split; [|split; [assumption|]].
  - intros Hin. by destruct (inv_linked _ _ Hinv _ Hin).
  - simpl. rewrite Hcb. reflexivity.
Qed.

(** ** A reader alone *)

Lemma run_app acts1 : ∀ acts2 st,
  run (acts1 ++ acts2) st = st' ← run acts1 st; run acts2 st'.
Proof.
  induction acts1 as [|act acts1 IH]; intros acts2 st; [reflexivity|].
  simpl. destruct (do_action act st); simpl; [apply IH | reflexivity].
Qed.

Lemma chain_lookup h l : ∀ p k a,
  chain h p l → l !! k = Some a →
  ∃ n, h !! a = Some n
       ∧ next n = (match l !! S k with Some b => Node b | None => Head end).
Proof.
  induction l as [|x l IH]; intros p k a Hc Hk; [discriminate|].
  simpl in Hc. destruct Hc as (-> & n & Hn & Hc). destruct k as [|k].
  - injection Hk as <-. exists n. split; [assumption|].
    apply chain_head in Hc. rewrite Hc. simpl. by rewrite head_lookup.
  - simpl in Hk. apply (IH _ _ _ Hc Hk).
Qed.

(** The state in which reader [t] has met the first [k] linked entries of
    [st] and nothing else has happened. *)
Lemma traversal_run st l t k :
  inv st l → readers st !! t = None → (k ≤ length l)%nat →
  run (traversal t k) st
  = Some (with_readers (<[t := {| cursor := position_after l k;
                                  unlinked_since := ∅ |}]> (readers st)) st).
Proof.
  intros Hinv Ht. pose proof (inv_chain _ _ Hinv) as Hch.
  unfold traversal. induction k as [|k IH]; intros Hk.
  - simpl. rewrite Ht. simpl. rewrite lookup_insert_eq. simpl.
    rewrite insert_insert_eq. unfold position_after.
    rewrite (chain_head _ _ _ Hch), head_lookup. reflexivity.
  - rewrite replicate_S_end, app_assoc, run_app, IH by lia.
    simpl. rewrite lookup_insert_eq. simpl.
    destruct (l !! k) as [a|] eqn:Ea.
    + unfold position_after at 1. rewrite Ea.
      destruct (chain_lookup _ _ _ _ _ Hch Ea) as (n & Hn & Hnext).
      rewrite Hn. simpl. rewrite insert_insert_eq. unfold position_after.
      rewrite Hnext. reflexivity.
    + apply lookup_ge_None in Ea. lia.
Qed.

(** X17.  A reader alone.  From any reachable state, a reader that enters
    and meets [k] entries while nothing else runs is, for every [k] up
    to the number of linked entries, at the [k]-th linked entry, and at
    the head of the list when it has met them all, where it can leave:
    the traversal meets each linked entry once, in the order of the list,
    and changes nothing but its own position. *)
Theorem lone_reader_meets_entries_in_order (acts : list action)
        (st : cstate) (t : tid) (k : nat) :
  run acts init = Some st → readers st !! t = None →
  (k ≤ length (linked st))%nat →
  ∃ st_k,
    run (traversal t k) st = Some st_k
    ∧ cursor <$> readers st_k !! t = Some (position_after (linked st) k)
    ∧ heap st_k = heap st ∧ linked st_k = linked st
    ∧ callbacks st_k = callbacks st ∧ freed st_k = freed st
    ∧ (k = length (linked st) → is_Some (do_action (RdUnlock t) st_k)).
Proof.
  intros Hrun Ht Hk. pose proof (reachable_inv _ _ Hrun) as Hinv.
  eexists. split; [apply (traversal_run _ _ _ _ Hinv Ht Hk)|].
  simpl. rewrite lookup_insert_eq. simpl.
  repeat split; try reflexivity.
  intros ->. unfold position_after.
  rewrite (proj2 (lookup_ge_None (linked st) (length (linked st))))
    by reflexivity.
  eauto.
Qed.

(** ** Readers never wait *)

Lemma no_poison_init : no_poison init.
Proof.
  split; [discriminate|]. split; simpl; intros ? ?; rewrite lookup_empty;
    discriminate.
Qed.

Lemma store_next_no_poison at_ v st st' :
  no_poison st → v ≠ Poison → store_next at_ v st = Some st' →
  no_poison st'
  ∧ readers st' = readers st
  ∧ (∀ a, is_Some (heap st' !! a) ↔ is_Some (heap st !! a)).
Proof.
  intros (Hh & Hn & Hr) Hv. destruct at_ as [|a|]; simpl; [| |discriminate].
  - intros [= <-]. unfold no_poison. simpl. repeat split; auto.
  - destruct (heap st !! a) as [n|] eqn:E; [|discriminate]. intros [= <-].
    unfold no_poison. simpl.
    split; [split; [assumption|split; [|assumption]]|split; [reflexivity|]].
    + intros b m. rewrite lookup_insert. case_decide; [|apply Hn].
      intros [= <-]. exact Hv.
    + intros b. rewrite lookup_insert_is_Some'. split; [|auto].
      intros [->|?]; eauto.
Qed.

Lemma store_prev_no_poison at_ v st st' :
  no_poison st → store_prev at_ v st = Some st' →
  no_poison st'
  ∧ readers st' = readers st
  ∧ (∀ a, next <$> heap st' !! a = next <$> heap st !! a).
Proof.
  intros (Hh & Hn & Hr). destruct at_ as [|a|]; simpl; [| |discriminate].
  - intros [= <-]. unfold no_poison. simpl. repeat split; auto.
  - destruct (heap st !! a) as [n|] eqn:E; [|discriminate]. intros [= <-].
    unfold no_poison. simpl.
    split; [split; [assumption|split; [|assumption]]|split; [reflexivity|]].
    + intros b m. rewrite lookup_insert. case_decide; [|apply Hn].
      intros [= <-]. simpl. subst. eauto.
    + intros b. rewrite lookup_insert. case_decide; [|reflexivity].
      subst. rewrite E. reflexivity.
Qed.

Lemma no_poison_step act st st' :
  no_poison st → do_action act st = Some st' → no_poison st'.
Proof.
  intros Hnp. pose proof Hnp as (Hh & Hn & Hr).
  destruct act as [t|t|t|t|a d| |a]; simpl.
  - destruct (readers st !! t); [discriminate|]. intros [= <-].
    split; [assumption|split; [assumption|]]. simpl. intros t' r.
    rewrite lookup_insert. case_decide; [|apply Hr]. intros [= <-].
    discriminate.
  - destruct (readers st !! t) as [r|] eqn:Ht; [|discriminate]. simpl.
    destruct (cursor r); [|discriminate]. intros [= <-].
    split; [assumption|split; [assumption|]]. simpl. intros t' r'.
    rewrite lookup_insert. case_decide; [|apply Hr]. intros [= <-]. simpl.
    congruence.
  - destruct (readers st !! t) as [r|] eqn:Ht; [|discriminate]. simpl.
    destruct (cursor r) as [|[|a|]]; try discriminate.
    destruct (heap st !! a) as [n|] eqn:En; [|discriminate]. simpl.
    intros [= <-]. split; [assumption|split; [assumption|]]. simpl.
    intros t' r'. rewrite lookup_insert. case_decide; [|apply Hr].
    intros [= <-]. simpl. specialize (Hn _ _ En). congruence.
  - destruct (readers st !! t) as [r|] eqn:Ht; [|discriminate]. simpl.
    destruct (cursor r) as [|[| |]]; try discriminate. intros [= <-].
    split; [assumption|split; [assumption|]]. simpl. intros t' r'.
    rewrite lookup_delete. case_decide; [discriminate|apply Hr].
  - destruct (heap st !! a) eqn:Ea; [discriminate|].
    unfold list_add_tail_rcu.
    set (st1 := with_heap _ st).
    assert (Hnp1 : no_poison st1).
    { split; [assumption|split; [|assumption]]. simpl. intros b m.
      rewrite lookup_insert. case_decide; [|apply Hn]. intros [= <-].
      discriminate. }
    destruct (store_next (head_prev st) (Node a) st1) as [st2|] eqn:E2;
      [|discriminate].
    assert (Hv : Node a ≠ Poison) by discriminate.
    destruct (store_next_no_poison _ _ _ _ Hnp1 Hv E2)
      as ((Hh2 & Hn2 & Hr2) & _). simpl. intros [= <-].
    split; [assumption|split; assumption].
  - destruct (head_next st) as [|a|] eqn:Ehd; [by intros [= <-]| |discriminate].
    unfold list_del_rcu.
    destruct (heap st !! a) as [n|] eqn:En; [|discriminate]. simpl.
    destruct (store_prev (next n) (prev n) st) as [st1|] eqn:E1;
      [|discriminate]. simpl.
    destruct (store_prev_no_poison _ _ _ _ Hnp E1) as (Hnp1 & _ & _).
    destruct (store_next (prev n) (next n) st1) as [st2|] eqn:E2;
      [|discriminate]. simpl.
    destruct (store_next_no_poison _ _ _ _ Hnp1 (Hn _ _ En) E2)
      as (Hnp2 & _ & _).
    destruct (heap st2 !! a) as [n2|] eqn:En2; [|discriminate]. simpl.
    assert (E3 : store_prev (Node a) Poison st2
                 = Some (with_heap (<[a := set_prev_field Poison n2]>
                                      (heap st2)) st2))
      by (simpl; rewrite En2; reflexivity).
    destruct (store_prev_no_poison _ _ _ _ Hnp2 E3)
      as ((Hh3 & Hn3 & Hr3) & _ & _).
    set (st3 := with_heap _ st2) in *.
    intros [= <-]. split; [assumption|split; [assumption|]]. simpl.
    intros t r. rewrite lookup_fmap.
    destruct (readers st2 !! t) as [r0|] eqn:Er; [|discriminate]. simpl.
    intros [= <-]. simpl. exact (Hr3 t r0 Er).
  - destruct (callbacks st !! a) as [w|]; [|discriminate]. simpl.
    case_decide; [|discriminate]. intros [= <-].
    split; [assumption|split; assumption].
Qed.

Lemma no_poison_run acts : ∀ st st',
  no_poison st → run acts st = Some st' → no_poison st'.
Proof.
  induction acts as [|act acts IH]; intros st st' Hnp; simpl.
  - by intros [= <-].
  - destruct (do_action act st) as [st1|] eqn:E; [|discriminate]. simpl.
    apply IH. eapply no_poison_step; eassumption.
Qed.

(** X18.  Readers never wait.  In every reachable state, every reader in
    progress can take its next step at once, whatever the updaters and the
    reclamation have done in between: load [dog_list.next] after
    [rcu_read_lock], visit the entry it is at (which is allocated), or
    leave when it is back at the head. *)
Theorem reader_can_always_step (acts : list action) (st : cstate) (t : tid)
        (r : reader) :
  run acts init = Some st → readers st !! t = Some r →
  match cursor r with
  | Entered => is_Some (do_action (RdFirst t) st)
  | At Head => is_Some (do_action (RdUnlock t) st)
  | At (Node a) => is_Some (do_action (RdVisit t) st)
  | At Poison => False
  end.
Proof.
  intros Hrun Hr. pose proof (reachable_inv _ _ Hrun) as Hinv.
  pose proof (no_poison_run _ _ _ no_poison_init Hrun) as (_ & _ & Hnp).
  specialize (Hnp _ _ Hr).
  destruct (cursor r) as [|[|a|]] eqn:Ec; [..|congruence]; simpl;
    rewrite Hr; simpl; rewrite ?Ec; eauto.
  destruct (inv_reader_safe _ _ _ _ Hinv Hr) as [Hsafe _].
  destruct (Hsafe a Ec) as [[n Hn] _]. rewrite Hn. simpl. eauto.
Qed.

(** ** Instances *)

Lemma store_links_at_tail_witness :
  let d := {| breed := "Pug"; age := 4; training_easy := true |} in
  ∃ st st',
    run [Store 1 d; RdLock 7; RdFirst 7; Timer; Store 3 d] init = Some st
    ∧ do_action (Store 2 d) st = Some st'
    ∧ linked st' = linked st ++ [2%nat]
    ∧ linked_dogs st' = linked_dogs st ++ [d]
    ∧ list_size st' = wrap_size (list_size st + 1).
Proof.
  intros d.
  destruct (run [Store 1 d; RdLock 7; RdFirst 7; Timer; Store 3 d] init)
    as [st|] eqn:Hrun; [|vm_compute in Hrun; discriminate].
  destruct (store_links_at_tail _ st 2%nat d Hrun) as (st' & H).
  - pose proof Hrun as Hc. vm_compute in Hc. injection Hc as <-.
    reflexivity.
  - exists st, st'. split; [reflexivity | exact H].
Defined.

Lemma timer_unlinks_first_witness :
  let d := {| breed := "Pug"; age := 4; training_easy := true |} in
  ∃ st st',
    run [Store 1 d; Store 2 d; RdLock 7] init = Some st
    ∧ do_action Timer st = Some st'
    ∧ linked st' = tail (linked st)
    ∧ linked_dogs st' = tail (linked_dogs st)
    ∧ list_size st' = list_size st.
Proof.
  intros d.
  destruct (run [Store 1 d; Store 2 d; RdLock 7] init)
    as [st|] eqn:Hrun; [|vm_compute in Hrun; discriminate].
  destruct (timer_unlinks_first _ st Hrun) as (st' & H1 & H2 & H3 & H4 & _).
  exists st, st'. split; [reflexivity|]. auto.
Defined.

Lemma free_possible_without_readers_witness :
  let d := {| breed := "Pug"; age := 4; training_easy := true |} in
  ∃ st st',
    run [Store 1 d; RdLock 7; RdFirst 7; Timer; RdVisit 7; RdUnlock 7] init
    = Some st
    ∧ do_action (Free 1) st = Some st' ∧ 1%nat ∈ freed st'.
Proof.
  intros d.
  destruct (run [Store 1 d; RdLock 7; RdFirst 7; Timer; RdVisit 7;
                 RdUnlock 7] init)
    as [st|] eqn:Hrun; [|vm_compute in Hrun; discriminate].
  destruct (free_possible_without_readers _ st 1%nat ∅ Hrun)
    as (st' & H1 & H2 & _).
  - pose proof Hrun as Hc. vm_compute in Hc. injection Hc as <-. reflexivity.
  - pose proof Hrun as Hc. vm_compute in Hc. injection Hc as <-. reflexivity.
  - exists st, st'. split; [reflexivity|]. auto.
Defined.

Lemma freed_entries_are_gone_witness :
  let d := {| breed := "Pug"; age := 4; training_easy := true |} in
  ∃ st,
    run [Store 1 d; Store 2 d; Timer; Free 1] init = Some st
    ∧ (1%nat ∉ linked st) ∧ do_action (Free 1) st = None.
Proof.
  intros d.
  destruct (run [Store 1 d; Store 2 d; Timer; Free 1] init)
    as [st|] eqn:Hrun; [|vm_compute in Hrun; discriminate].
  destruct (freed_entries_are_gone _ st 1%nat Hrun) as (H1 & _ & H2).
  - assert (Hf : freed st = {[1%nat]}).
    { pose proof Hrun as Hc. vm_compute in Hc. injection Hc as <-.
      vm_compute. reflexivity. }
    rewrite Hf. by apply elem_of_singleton.
  - exists st. split; [reflexivity|]. auto.
Defined.

Lemma lone_reader_meets_entries_in_order_witness :
  let d := {| breed := "Pug"; age := 4; training_easy := true |} in
  ∃ st st_k,
    run [Store 1 d; Store 2 d; Store 3 d; Timer] init = Some st
    ∧ run (traversal 7 1) st = Some st_k
    ∧ cursor <$> readers st_k !! 7%nat = Some (At (Node 3)).
Proof.
  intros d.
  destruct (run [Store 1 d; Store 2 d; Store 3 d; Timer] init)
    as [st|] eqn:Hrun; [|vm_compute in Hrun; discriminate].
  destruct (lone_reader_meets_entries_in_order _ st 7%nat 1%nat Hrun)
    as (st_k & H1 & H2 & _).
  - pose proof Hrun as Hc. vm_compute in Hc. injection Hc as <-. reflexivity.
  - pose proof Hrun as Hc. vm_compute in Hc. injection Hc as <-.
    vm_compute. lia.
  - exists st, st_k. split; [reflexivity|]. split; [exact H1|].
    rewrite H2. pose proof Hrun as Hc. vm_compute in Hc. injection Hc as <-.
    reflexivity.
Defined.

Lemma reader_can_always_step_witness :
  let d := {| breed := "Pug"; age := 4; training_easy := true |} in
  ∃ st,
    run [Store 1 d; Store 2 d; RdLock 7; RdFirst 7; Timer; Free 1] init
    = None
    ∧ run [Store 1 d; Store 2 d; RdLock 7; RdFirst 7; Timer] init = Some st
    ∧ is_Some (do_action (RdVisit 7) st).
Proof.
  intros d.
  destruct (run [Store 1 d; Store 2 d; RdLock 7; RdFirst 7; Timer] init)
    as [st|] eqn:Hrun; [|vm_compute in Hrun; discriminate].
  exists st. split; [reflexivity|]. split; [reflexivity|].
  pose proof (reader_can_always_step _ st 7%nat
                {| cursor := At (Node 1); unlinked_since := {[1%nat]} |}
                Hrun) as H.
  apply H. pose proof Hrun as Hc. vm_compute in Hc. injection Hc as <-.
  reflexivity.
Defined.

End RcuMore.
